(** * bingoscape-itemdata: item names, id lists, image URLs and the catalogue

    A shallow embedding of the pure functions of the package
    ([src/utils/imageUrl.ts], [parseItemIds] of [src/scraper/scrape.ts] and
    the query functions of [src/index.ts]) together with the properties the
    specification states about them.

    Conventions of the embedding.
    - A JavaScript string is a Rocq [string]; every [ascii] stands for one
      code unit in the range 0..255.
    - A JavaScript number produced by [parseInt] is a [jsnum]: [NaN] or an
      exact integer.  The embedding is exact for safe integers (magnitude
      at most 2^53 - 1); the theorems about parsed numbers carry that bound.
      The same holds for the thumbnail width and the text a template
      literal gives for it: the theorems that state that text carry the
      bound on the width.
    - An optional parameter or optional field is an [option]; [None] is
      [undefined].
    - The module-level array [itemsData] of [src/index.ts] is passed to the
      query functions explicitly. *)

From Stdlib Require Import ZArith NArith List Bool Ascii String Lia.
From Stdlib Require Import DecimalString DecimalPos DecimalN.
From Stdlib Require Import Sorted.
Import ListNotations.

#[local] Open Scope string_scope.
#[local] Open Scope Z_scope.

(* ================================================================== *)
(** * Part I: the embedding *)
(* ================================================================== *)

(** ** ECMAScript primitives used by the sources *)

Module JS.

(** [WhiteSpace] and [LineTerminator] code units below 256: TAB, LF, VT, FF,
    CR, SP and NBSP.  These are the code units [String.prototype.trim] and
    [parseInt] strip. *)
Definition isWhiteSpace (c : ascii) : bool :=
  let n := nat_of_ascii c in
  ((9 <=? n)%nat && (n <=? 13)%nat) || (n =? 32)%nat || (n =? 160)%nat.

(** [s.trimStart()] *)
Fixpoint trimStart (s : string) : string :=
  match s with
  | EmptyString => EmptyString
  | String c r => if isWhiteSpace c then trimStart r else s
  end.

(** [s.trimEnd()] *)
Fixpoint trimEnd (s : string) : string :=
  match s with
  | EmptyString => EmptyString
  | String c r =>
      match trimEnd r with
      | EmptyString => if isWhiteSpace c then EmptyString else String c EmptyString
      | r' => String c r'
      end
  end.

(** [s.trim()] *)
Definition trim (s : string) : string := trimEnd (trimStart s).

(** [s.startsWith(p)] *)
Fixpoint startsWith (s p : string) : bool :=
  match p, s with
  | EmptyString, _ => true
  | String _ _, EmptyString => false
  | String a p', String b s' => Ascii.eqb a b && startsWith s' p'
  end.

(** [s.endsWith(p)] for a one-character [p] *)
Fixpoint endsWith (s : string) (p : ascii) : bool :=
  match s with
  | EmptyString => false
  | String c EmptyString => Ascii.eqb c p
  | String _ r => endsWith r p
  end.

(** [s.includes(sub)] *)
Fixpoint includes (s sub : string) : bool :=
  startsWith s sub ||
  match s with
  | EmptyString => false
  | String _ r => includes r sub
  end.

(** [s.split(sep)] for a one-character separator.  The result is never the
    empty array: a string without the separator gives the one-element array
    holding the string itself. *)
Fixpoint split (s : string) (sep : ascii) : list string :=
  match s with
  | EmptyString => [EmptyString]
  | String c r =>
      if Ascii.eqb c sep then EmptyString :: split r sep
      else match split r sep with
           | h :: t => String c h :: t
           | [] => [String c EmptyString]
           end
  end.

(** [s.replace(/c/g, r)] for a pattern that is the single literal character
    [c] and a replacement [r] without [$]. *)
Fixpoint replace_g (s : string) (c : ascii) (r : string) : string :=
  match s with
  | EmptyString => EmptyString
  | String a s' =>
      if Ascii.eqb a c then r ++ replace_g s' c r
      else String a (replace_g s' c r)
  end.

(** [s.toLowerCase()] on code units below 256: A-Z and the Latin-1 capitals
    U+00C0..U+00DE except the multiplication sign U+00D7 move up by 32. *)
Definition lowerChar (c : ascii) : ascii :=
  let n := nat_of_ascii c in
  if ((65 <=? n)%nat && (n <=? 90)%nat)
     || ((192 <=? n)%nat && (n <=? 222)%nat && negb (n =? 215)%nat)
  then ascii_of_nat (n + 32) else c.

Fixpoint toLowerCase (s : string) : string :=
  match s with
  | EmptyString => EmptyString
  | String c r => String (lowerChar c) (toLowerCase r)
  end.

(** Numbers as [parseInt] produces them. *)
Inductive jsnum : Type :=
| NaN : jsnum
| Num : Z -> jsnum.

Definition digitValue (c : ascii) : option Z :=
  let n := nat_of_ascii c in
  if ((48 <=? n)%nat && (n <=? 57)%nat) then Some (Z.of_nat (n - 48)) else None.

(** The longest prefix of decimal digits of [s], read as an integer; [seen]
    records whether a digit has been consumed. *)
Fixpoint parseDigits (s : string) (acc : Z) (seen : bool) : option Z :=
  match s with
  | EmptyString => if seen then Some acc else None
  | String c r =>
      match digitValue c with
      | Some d => parseDigits r (10 * acc + d) true
      | None => if seen then Some acc else None
      end
  end.

(** [parseInt(s, 10)]: leading white space is skipped, one sign is accepted,
    the longest digit prefix is read and whatever follows is ignored; with no
    digit the result is [NaN]. *)
Definition parseInt (s : string) : jsnum :=
  let s' := trimStart s in
  let '(sign, body) :=
    match s' with
    | String "-" r => (-1, r)
    | String "+" r => (1, r)
    | _ => (1, s')
    end in
  match parseDigits body 0 false with
  | Some m => Num (sign * m)
  | None => NaN
  end.

(** The text a template literal gives for a safe integer (magnitude at most
    2^53 - 1): its decimal digits, with a minus sign when negative.  Beyond
    that range a number prints the shortest digits that read back as the
    same double, which this definition does not follow. *)
Definition Number_toString (n : Z) : string :=
  NilEmpty.string_of_int (Z.to_int n).

(** Truthiness of an optional string: [undefined] and [""] are falsy. *)
Definition truthy (v : option string) : bool :=
  match v with
  | Some (String _ _) => true
  | _ => false
  end.

End JS.

(** ** [src/utils/imageUrl.ts] *)

Module ImageUrl.
Import JS.

Definition WIKI_IMAGE_BASE_URL : string := "https://oldschool.runescape.wiki/images".
Definition DEFAULT_THUMB_WIDTH : Z := 120.

Record ImageUrlOptions : Type := {
  width : option Z;
  useThumb : option bool
}.

(** The default argument [{}]. *)
Definition noOptions : ImageUrlOptions := {| width := None; useThumb := None |}.

Definition constructImageFilename (itemName : string) (includeVariant : option bool)
  : string :=
  let includeVariant := match includeVariant with Some b => b | None => false end in
  let name := trim itemName in
  let name :=
    if includes name "#" then
      let parts := split name "#" in
      let trimmedBase := trim (hd EmptyString parts) in
      let trimmedVariant := option_map trim (nth_error parts 1) in
      if truthy trimmedVariant && includeVariant then
        let lowerVariant :=
          toLowerCase (match trimmedVariant with Some v => v | None => EmptyString end) in
        let hasParens := startsWith lowerVariant "(" && endsWith lowerVariant ")" in
        if hasParens then trimmedBase ++ " " ++ lowerVariant
        else trimmedBase ++ " (" ++ lowerVariant ++ ")"
      else trimmedBase
    else name in
  let name := replace_g name " " "_" in
  let name := replace_g name "'" "%27" in
  let name := replace_g name "(" "%28" in
  let name := replace_g name ")" "%29" in
  let name := replace_g name "#" "%23" in
  let name := replace_g name "+" "%2B" in
  let name := replace_g name "?" "%3F" in
  let name := replace_g name "&" "%26" in
  name ++ "_detail.png".

Definition constructBaseImageFilename (itemName : string) : string :=
  constructImageFilename itemName None.

Definition getItemImageUrl (itemName : string) (options : ImageUrlOptions) : string :=
  let width := match width options with Some w => w | None => DEFAULT_THUMB_WIDTH end in
  let useThumb := match useThumb options with Some b => b | None => true end in
  let filename := constructImageFilename itemName None in
  if useThumb then
    WIKI_IMAGE_BASE_URL ++ "/thumb/" ++ filename ++ "/"
      ++ Number_toString width ++ "px-" ++ filename
  else
    WIKI_IMAGE_BASE_URL ++ "/" ++ filename.

Record ImageUrls : Type := {
  variantUrl : string;
  baseUrl : string
}.

Definition getItemImageUrls (itemName : string) (options : ImageUrlOptions) : ImageUrls :=
  let imageUrl := getItemImageUrl itemName options in
  {| variantUrl := imageUrl; baseUrl := imageUrl |}.

Record ParsedName : Type := {
  baseName : string;
  variant : option string
}.

(** [const [baseName, variant] = trimmed.split('#')] binds the first two
    elements of the array; [variant?.trim()] maps over an absent element. *)
Definition parseItemName (itemName : string) : ParsedName :=
  let trimmed := trim itemName in
  if includes trimmed "#" then
    let parts := split trimmed "#" in
    {| baseName := trim (hd EmptyString parts);
       variant := option_map trim (nth_error parts 1) |}
  else
    {| baseName := trimmed; variant := None |}.

End ImageUrl.

(** ** [parseItemIds] of [src/scraper/scrape.ts] *)

Module Scrape.
Import JS.

(** [number | number[]] *)
Inductive ItemIds : Type :=
| Scalar : jsnum -> ItemIds
| Sequence : list jsnum -> ItemIds.

(** [for (let i = start; i <= end; i++) ids.push(i)] from [i], with a bound on
    the number of iterations. *)
Fixpoint forRange (fuel : nat) (i stop : Z) (ids : list jsnum) : list jsnum :=
  match fuel with
  | O => ids
  | S fuel' =>
      if i <=? stop then forRange fuel' (i + 1) stop (ids ++ [Num i])
      else ids
  end.

(** The loop over the parsed bounds.  A comparison with [NaN] is false, so
    the body never runs when either bound is [NaN]. *)
Definition pushRange (start stop : jsnum) (ids : list jsnum) : list jsnum :=
  match start, stop with
  | Num a, Num b => forRange (Z.to_nat (b - a + 1)) a b ids
  | _, _ => ids
  end.

(** [const [start, end] = s.split('-').map((s) => parseInt(s.trim(), 10))].
    A missing second element would be [undefined], which compares like
    [NaN]. *)
Definition rangeBounds (s : string) : jsnum * jsnum :=
  match map (fun p => parseInt (trim p)) (split s "-") with
  | a :: b :: _ => (a, b)
  | [a] => (a, NaN)
  | [] => (NaN, NaN)
  end.

(** One iteration of [for (const part of parts)]. *)
Definition pushPart (ids : list jsnum) (part : string) : list jsnum :=
  let partTrimmed := trim part in
  if includes partTrimmed "-" then
    let '(start, stop) := rangeBounds partTrimmed in
    pushRange start stop ids
  else ids ++ [parseInt partTrimmed].

Definition parseItemIds (idString : string) : ItemIds :=
  let trimmed := trim idString in
  if includes trimmed "," then
    Sequence (fold_left pushPart (split trimmed ",") [])
  else if includes trimmed "-" then
    let '(start, stop) := rangeBounds trimmed in
    Sequence (pushRange start stop [])
  else Scalar (parseInt trimmed).

End Scrape.

(** ** The query functions of [src/index.ts] *)

Module Catalog.
Import JS.

(** [id: number | number[]] of the data model: a single integer or an
    ordered sequence of integers. *)
Inductive ItemId : Type :=
| IdOne : Z -> ItemId
| IdMany : list Z -> ItemId.

Record OsrsItem : Type := {
  id : ItemId;
  name : string;
  baseName : string;
  variant : option string;
  imageUrl : string
}.

Record ItemFilter : Type := {
  nameContains : option string;
  hasVariant : option bool;
  limit : option Z
}.

(** The callback shared by [getItemById] and [getItemsById]. *)
Definition matchesId (q : Z) (item : OsrsItem) : bool :=
  match id item with
  | IdMany l => existsb (Z.eqb q) l
  | IdOne n => Z.eqb n q
  end.

Section Queries.

Variable itemsData : list OsrsItem.

Definition getItemById (q : Z) : option OsrsItem :=
  find (matchesId q) itemsData.

Definition getItemsById (q : Z) : list OsrsItem :=
  filter (matchesId q) itemsData.

Definition getItemByName (n : string) : option OsrsItem :=
  find (fun item => String.eqb (name item) n) itemsData.

(** [results.slice(0, limit)] guarded by [limit && limit > 0]. *)
Definition applyLimit (lim : option Z) (results : list OsrsItem) : list OsrsItem :=
  match lim with
  | Some l => if 0 <? l then firstn (Z.to_nat l) results else results
  | None => results
  end.

Definition searchItemsByName (query : string) (lim : option Z) : list OsrsItem :=
  let lowerQuery := toLowerCase query in
  let results :=
    filter (fun item => includes (toLowerCase (name item)) lowerQuery) itemsData in
  applyLimit lim results.

Definition getAllItems (flt : option ItemFilter) : list OsrsItem :=
  let results := itemsData in
  match flt with
  | None => results
  | Some f =>
      let results :=
        match nameContains f with
        | Some q =>
            let lowerQuery := toLowerCase q in
            filter (fun item => includes (toLowerCase (name item)) lowerQuery) results
        | None => results
        end in
      let results :=
        match hasVariant f with
        | Some hv =>
            filter (fun item =>
                      if hv then match variant item with Some _ => true | None => false end
                      else match variant item with Some _ => false | None => true end)
                   results
        | None => results
        end in
      applyLimit (limit f) results
  end.

Definition getItemCount : nat := List.length itemsData.

Definition getItemVariants (b : string) : list OsrsItem :=
  filter (fun item => String.eqb (baseName item) b) itemsData.

(** [baseNames.add(x)] on a [Set<string>], kept as the list of its elements
    in insertion order: a value already present is not added again. *)
Definition setAdd (seen : list string) (x : string) : list string :=
  if existsb (String.eqb x) seen then seen else (seen ++ [x])%list.

(** [Array.prototype.sort()] without a comparator orders strings by their
    code units, ascending.  That order is total and antisymmetric, so the
    sorted array does not depend on the sorting algorithm; insertion is used
    here. *)
Fixpoint insertSorted (x : string) (l : list string) : list string :=
  match l with
  | [] => [x]
  | y :: t => if String.leb x y then x :: l else y :: insertSorted x t
  end.

Definition sort (l : list string) : list string :=
  fold_right insertSorted [] l.

Definition getUniqueBaseNames : list string :=
  let baseNames :=
    fold_left (fun seen item => setAdd seen (baseName item)) itemsData [] in
  sort baseNames.

End Queries.

End Catalog.

(** ** The row loop of [scrapeItemIds] in [src/scraper/scrape.ts]

    Fetching the page and locating the table are outside the embedding.  The
    table is given as the list of its rows ([tr]), each row as the list of
    the texts of its [td] cells; the first row is the header. *)

Module Scraper.
Import JS.

(** [OsrsItem] as the scraper builds it: [id] is what [parseItemIds]
    returned. *)
Record OsrsItem : Type := {
  id : Scrape.ItemIds;
  name : string;
  baseName : string;
  variant : option string;
  imageUrl : string
}.

(** [!s] for a string. *)
Definition isEmpty (s : string) : bool :=
  match s with
  | EmptyString => true
  | String _ _ => false
  end.

(** The callback of [table.find('tr').each((index, element) => ...)] on the
    row [index] with the cell texts [cells].  None of the three calls inside
    [try] throws, so the [catch] branch is never taken. *)
Definition scrapeRow (items : list OsrsItem) (index : nat) (cells : list string)
  : list OsrsItem :=
  if (index =? 0)%nat then items
  else if (List.length cells <? 2)%nat then items
  else
    let itemName := trim (nth 0 cells EmptyString) in
    let itemIdString := trim (nth 1 cells EmptyString) in
    if isEmpty itemName || isEmpty itemIdString then items
    else
      let id := Scrape.parseItemIds itemIdString in
      let parsed := ImageUrl.parseItemName itemName in
      let imageUrl := ImageUrl.getItemImageUrl itemName ImageUrl.noOptions in
      (items ++ [ {| id := id;
                     name := itemName;
                     baseName := ImageUrl.baseName parsed;
                     variant := ImageUrl.variant parsed;
                     imageUrl := imageUrl |} ])%list.

Fixpoint eachRow (index : nat) (rows : list (list string)) (items : list OsrsItem)
  : list OsrsItem :=
  match rows with
  | [] => items
  | cells :: rest => eachRow (S index) rest (scrapeRow items index cells)
  end.

(** The items [scrapeItemIds] returns for a table. *)
Definition scrapeTable (rows : list (list string)) : list OsrsItem :=
  eachRow 0 rows [].

End Scraper.

(** ** The specification's reading of the operations

    Definitions that follow the words of the specification, and the
    auxiliary notions its statements need; the theorems of Part II compare
    them with the embedding of the code. *)

Module Spec.
Import JS.

(** Occurrence of a character in a string. *)
Fixpoint mem (c : ascii) (s : string) : bool :=
  match s with
  | EmptyString => false
  | String a r => Ascii.eqb a c || mem c r
  end.

(** Every character of the string satisfies [p]. *)
Fixpoint every (p : ascii -> bool) (s : string) : bool :=
  match s with
  | EmptyString => true
  | String a r => p a && every p r
  end.

(** A single split on the first occurrence of [sep]: the text before it and,
    when the separator occurs, everything after it. *)
Fixpoint splitFirst (s : string) (sep : ascii) : string * option string :=
  match s with
  | EmptyString => (EmptyString, None)
  | String c r =>
      if Ascii.eqb c sep then (EmptyString, Some r)
      else let '(h, t) := splitFirst r sep in (String c h, t)
  end.

(** Section 4.2: split at the first [#]; trimmed base name and trimmed text
    after the delimiter. *)
Definition parseItemName_spec (raw : string) : ImageUrl.ParsedName :=
  let '(b, v) := splitFirst raw "#" in
  {| ImageUrl.baseName := trim b; ImageUrl.variant := option_map trim v |}.

(** Section 4.2, "only if text follows the delimiter": a variant is reported
    for [raw] only when the text after the first [#] is not empty. *)
Definition variantOnlyWithText (raw : string) : Prop :=
  ImageUrl.variant (ImageUrl.parseItemName raw) <> None ->
  exists t, snd (splitFirst (trim raw) "#") = Some t /\ t <> EmptyString.

(** Section 4.3, steps 2 and 3, as one pass over the characters. *)
Definition encodeChar (c : ascii) : string :=
  match c with
  | " "%char => "_"
  | "'"%char => "%27"
  | "("%char => "%28"
  | ")"%char => "%29"
  | "#"%char => "%23"
  | "+"%char => "%2B"
  | "?"%char => "%3F"
  | "&"%char => "%26"
  | _ => String c EmptyString
  end.

Fixpoint encode (s : string) : string :=
  match s with
  | EmptyString => EmptyString
  | String c r => encodeChar c ++ encode r
  end.

(** Section 4.3, steps 1 to 4. *)
Definition detailFilename (raw : string) : string :=
  encode (trim (fst (splitFirst raw "#"))) ++ "_detail.png".


Definition MAX_SAFE_INTEGER : Z := 9007199254740991.

(** Decimal text of a natural number. *)
Definition showN (n : N) : string := NilEmpty.string_of_uint (N.to_uint n).










(** Section 4.4: an entry matches a query id if its scalar equals it or its
    sequence contains it. *)
Definition idMatches (q : Z) (item : Catalog.OsrsItem) : Prop :=
  Catalog.id item = Catalog.IdOne q \/
  exists l, Catalog.id item = Catalog.IdMany l /\ In q l.

(** Case-insensitive substring: the lowered name contains the lowered
    query somewhere. *)
Definition containsIgnoreCase (s q : string) : Prop :=
  exists pre post, toLowerCase s = pre ++ toLowerCase q ++ post.

(** Section 4.4: the conjunction of the predicates a filter gives. *)
Definition satisfies (f : Catalog.ItemFilter) (item : Catalog.OsrsItem) : Prop :=
  (forall q, Catalog.nameContains f = Some q ->
             containsIgnoreCase (Catalog.name item) q) /\
  (Catalog.hasVariant f = Some true -> Catalog.variant item <> None) /\
  (Catalog.hasVariant f = Some false -> Catalog.variant item = None).

Definition satisfiesb (f : Catalog.ItemFilter) (item : Catalog.OsrsItem) : bool :=
  match Catalog.nameContains f with
  | Some q => includes (toLowerCase (Catalog.name item)) (toLowerCase q)
  | None => true
  end
  && match Catalog.hasVariant f, Catalog.variant item with
     | Some true, None => false
     | Some false, Some _ => false
     | _, _ => true
     end.

(** Section 4.4: all predicates first, then the cap, in dataset order. *)
Definition getFiltered (data : list Catalog.OsrsItem) (f : Catalog.ItemFilter)
  : list Catalog.OsrsItem :=
  let kept := filter (satisfiesb f) data in
  match Catalog.limit f with
  | Some l => if 0 <? l then firstn (Z.to_nat l) kept else kept
  | None => kept
  end.

(** Apply [f] to the first, respectively the last, element of a list. *)
Definition mapHead {A : Type} (f : A -> A) (l : list A) : list A :=
  match l with
  | [] => []
  | h :: t => f h :: t
  end.

Fixpoint mapLast {A : Type} (f : A -> A) (l : list A) : list A :=
  match l with
  | [] => []
  | [x] => [f x]
  | x :: t => x :: mapLast f t
  end.

Definition isDigit (c : ascii) : bool :=
  match digitValue c with
  | Some _ => true
  | None => false
  end.

(** The variant as [constructImageFilename] folds it into the name when
    [includeVariant] is set: lower case, in parentheses unless it has them. *)
Definition variantSuffix (v : string) : string :=
  let lowerVariant := toLowerCase v in
  if startsWith lowerVariant "(" && endsWith lowerVariant ")" then lowerVariant
  else "(" ++ lowerVariant ++ ")".

(** A table row the scraper turns into an item: at least two cells, and
    neither of the first two blank. *)
Definition usableRow (cells : list string) : bool :=
  (2 <=? List.length cells)%nat
  && negb (every isWhiteSpace (nth 0 cells EmptyString))
  && negb (every isWhiteSpace (nth 1 cells EmptyString)).

Definition hasVariantOnly (hv : bool) : Catalog.ItemFilter :=
  {| Catalog.nameContains := None;
     Catalog.hasVariant := Some hv;
     Catalog.limit := None |}.

(** An item and a small table for the examples. *)
Definition whip : Catalog.OsrsItem :=
  {| Catalog.id := Catalog.IdOne 4151;
     Catalog.name := "Abyssal whip";
     Catalog.baseName := "Abyssal whip";
     Catalog.variant := None;
     Catalog.imageUrl :=
       "https://oldschool.runescape.wiki/images/thumb/Abyssal_whip_detail.png/120px-Abyssal_whip_detail.png" |}.

Definition sampleTable : list (list string) :=
  [ ["Item"; "ID"];
    [" Amulet of glory#1 "; "1704-1706"];
    ["Only one cell"];
    ["Mystery box"; "soon"];
    [""; "12"] ].

(** The width of the options, when given, is a safe integer. *)
Definition safeWidth (o : ImageUrl.ImageUrlOptions) : bool :=
  match ImageUrl.width o with
  | Some w => Z.abs w <=? MAX_SAFE_INTEGER
  | None => true
  end.

End Spec.

(* ================================================================== *)
(** * Part II: properties *)
(* ================================================================== *)

(** ** Facts about the string primitives *)

Module JSFacts.
Import JS Spec.

(** Case analysis on the eight bits of a character. *)
Ltac each_char c := destruct c as [[] [] [] [] [] [] [] []].

Lemma includes_char (s : string) (c : ascii) :
  includes s (String c EmptyString) = mem c s.
Proof.
  induction s as [|a r IH]; simpl; [reflexivity|].
  rewrite IH, Ascii.eqb_sym. now destruct r; rewrite andb_true_r.
Qed.

Lemma mem_app (c : ascii) (s t : string) : mem c (s ++ t) = mem c s || mem c t.
Proof.
  induction s as [|a r IH]; simpl; [reflexivity|].
  now rewrite IH, orb_assoc.
Qed.

Lemma every_app (p : ascii -> bool) (s t : string) :
  every p (s ++ t) = every p s && every p t.
Proof.
  induction s as [|a r IH]; simpl; [reflexivity|].
  now rewrite IH, andb_assoc.
Qed.

Lemma every_mem (p : ascii -> bool) (c : ascii) (s : string) :
  every p s = true -> p c = false -> mem c s = false.
Proof.
  intros Hs Hc. induction s as [|a r IH]; simpl in *; [reflexivity|].
  apply andb_prop in Hs as [Ha Hr]. rewrite (IH Hr), orb_false_r.
  destruct (Ascii.eqb_spec a c) as [->|]; [congruence | reflexivity].
Qed.

(** *** [trimStart] *)

Lemma trimStart_idem (s : string) : trimStart (trimStart s) = trimStart s.
Proof.
  induction s as [|c r IH]; simpl; [reflexivity|].
  destruct (isWhiteSpace c) eqn:E; [exact IH | simpl; now rewrite E].
Qed.

Lemma trimStart_white_app (l s : string) :
  every isWhiteSpace l = true -> trimStart (l ++ s) = trimStart s.
Proof.
  induction l as [|c r IH]; simpl; [reflexivity|].
  intros H. apply andb_prop in H as [Hc Hr]. rewrite Hc. auto.
Qed.

Lemma mem_trimStart (c : ascii) (s : string) :
  isWhiteSpace c = false -> mem c (trimStart s) = mem c s.
Proof.
  intros Hc. induction s as [|a r IH]; simpl; [reflexivity|].
  destruct (isWhiteSpace a) eqn:E; [|reflexivity].
  rewrite IH. destruct (Ascii.eqb_spec a c) as [->|]; [congruence | reflexivity].
Qed.

(** *** [trimEnd] *)

Lemma trimEnd_cons (c : ascii) (r : string) :
  trimEnd (String c r) =
  match trimEnd r with
  | EmptyString => if isWhiteSpace c then EmptyString else String c EmptyString
  | String _ _ => String c (trimEnd r)
  end.
Proof. simpl. destruct (trimEnd r); reflexivity. Qed.

Lemma trimEnd_cons_keep (c : ascii) (r : string) :
  isWhiteSpace c = false -> trimEnd (String c r) = String c (trimEnd r).
Proof. intros H. rewrite trimEnd_cons, H. destruct (trimEnd r); reflexivity. Qed.

Lemma trimEnd_idem (s : string) : trimEnd (trimEnd s) = trimEnd s.
Proof.
  induction s as [|c r IH]; [reflexivity|].
  rewrite trimEnd_cons. destruct (trimEnd r) as [|a t] eqn:E.
  - destruct (isWhiteSpace c) eqn:W; [reflexivity|].
    rewrite trimEnd_cons. simpl. now rewrite W.
  - rewrite trimEnd_cons, IH. reflexivity.
Qed.

Lemma trimEnd_white (r : string) :
  every isWhiteSpace r = true -> trimEnd r = EmptyString.
Proof.
  induction r as [|c t IH]; [reflexivity|]. simpl every.
  intros H. apply andb_prop in H as [Hc Ht].
  rewrite trimEnd_cons, (IH Ht), Hc. reflexivity.
Qed.

Lemma trimEnd_app_white (s r : string) :
  every isWhiteSpace r = true -> trimEnd (s ++ r) = trimEnd s.
Proof.
  intros Hr. induction s as [|c t IH].
  - simpl. now apply trimEnd_white.
  - change (String c t ++ r) with (String c (t ++ r)).
    rewrite !trimEnd_cons, IH. reflexivity.
Qed.

Lemma mem_trimEnd (c : ascii) (s : string) :
  isWhiteSpace c = false -> mem c (trimEnd s) = mem c s.
Proof.
  intros Hc. induction s as [|a r IH]; [reflexivity|].
  rewrite trimEnd_cons. simpl mem. rewrite <- IH.
  destruct (trimEnd r) as [|b t]; [|reflexivity].
  simpl. rewrite orb_false_r.
  destruct (isWhiteSpace a) eqn:W; simpl; [|now rewrite orb_false_r].
  destruct (Ascii.eqb_spec a c) as [->|]; [congruence | reflexivity].
Qed.

Lemma trimStart_trimEnd (s : string) : trimStart (trimEnd s) = trimEnd (trimStart s).
Proof.
  induction s as [|c r IH]; [reflexivity|].
  simpl trimStart at 2. destruct (isWhiteSpace c) eqn:W.
  - rewrite <- IH, trimEnd_cons, W.
    destruct (trimEnd r) as [|a t]; [reflexivity|]. simpl. now rewrite W.
  - rewrite (trimEnd_cons_keep _ _ W). simpl. now rewrite W.
Qed.

(** *** [trim] *)

Lemma mem_trim (c : ascii) (s : string) :
  isWhiteSpace c = false -> mem c (trim s) = mem c s.
Proof. intros H. unfold trim. now rewrite mem_trimEnd, mem_trimStart. Qed.

Lemma trim_trimStart (s : string) : trim (trimStart s) = trim s.
Proof. unfold trim. now rewrite trimStart_idem. Qed.

Lemma trim_trimEnd (s : string) : trim (trimEnd s) = trim s.
Proof. unfold trim. now rewrite trimStart_trimEnd, trimEnd_idem. Qed.

Lemma trim_idem (s : string) : trim (trim s) = trim s.
Proof. unfold trim at 2. now rewrite trim_trimEnd, trim_trimStart. Qed.

Lemma trim_white_app (l s : string) :
  every isWhiteSpace l = true -> trim (l ++ s) = trim s.
Proof. intros H. unfold trim. now rewrite trimStart_white_app. Qed.

Lemma trim_app_white (s r : string) :
  every isWhiteSpace r = true -> trim (s ++ r) = trim s.
Proof.
  intros H. rewrite <- (trim_trimEnd (s ++ r)), trimEnd_app_white by assumption.
  apply trim_trimEnd.
Qed.

End JSFacts.

(** ** Facts about [split] *)

Module SplitFacts.
Import JS Spec JSFacts.

Lemma split_cons (c : ascii) (r : string) (sep : ascii) :
  split (String c r) sep =
  if Ascii.eqb c sep then EmptyString :: split r sep
  else String c (hd EmptyString (split r sep)) :: tl (split r sep).
Proof. simpl. destruct (Ascii.eqb c sep), (split r sep); reflexivity. Qed.

Lemma split_not_nil (s : string) (sep : ascii) : split s sep <> [].
Proof.
  destruct s as [|c r]; [discriminate|].
  rewrite split_cons. destruct (Ascii.eqb c sep); discriminate.
Qed.

Lemma split_singleton_empty (s : string) (sep : ascii) :
  split s sep = [EmptyString] -> s = EmptyString.
Proof.
  destruct s as [|c r]; [reflexivity|].
  rewrite split_cons. destruct (Ascii.eqb c sep); [|discriminate].
  intros H. inversion H as [H1]. now apply split_not_nil in H1.
Qed.

Lemma split_no_sep (s : string) (sep : ascii) :
  mem sep s = false -> split s sep = [s].
Proof.
  induction s as [|c r IH]; [reflexivity|]. simpl mem.
  intros H. apply orb_false_elim in H as [Hc Hr].
  rewrite split_cons, Hc, (IH Hr). reflexivity.
Qed.

Lemma split_app_sep (x : string) (sep : ascii) (y : string) :
  mem sep x = false -> split (x ++ String sep y) sep = x :: split y sep.
Proof.
  induction x as [|c r IH]; simpl mem.
  - intros _. simpl append. now rewrite split_cons, Ascii.eqb_refl.
  - intros H. apply orb_false_elim in H as [Hc Hr].
    change (String c r ++ String sep y) with (String c (r ++ String sep y)).
    rewrite split_cons, Hc, (IH Hr). reflexivity.
Qed.



Lemma split_trimStart (s : string) (sep : ascii) :
  isWhiteSpace sep = false ->
  split (trimStart s) sep = mapHead trimStart (split s sep).
Proof.
  intros Hsep. induction s as [|c r IH]; [reflexivity|].
  simpl trimStart. destruct (isWhiteSpace c) eqn:W.
  - rewrite IH, split_cons.
    destruct (Ascii.eqb_spec c sep) as [->|_]; [congruence|].
    destruct (split r sep) as [|h t] eqn:E; [now apply split_not_nil in E|].
    simpl. now rewrite W.
  - rewrite split_cons. destruct (Ascii.eqb c sep); simpl; [reflexivity|].
    now rewrite W.
Qed.

Lemma split_trimEnd (s : string) (sep : ascii) :
  isWhiteSpace sep = false ->
  split (trimEnd s) sep = mapLast trimEnd (split s sep).
Proof.
  intros Hsep. induction s as [|c r IH]; [reflexivity|].
  rewrite (split_cons c r). destruct (Ascii.eqb_spec c sep) as [->|Hne].
  - rewrite (trimEnd_cons_keep _ _ Hsep), split_cons, Ascii.eqb_refl, IH.
    destruct (split r sep) eqn:E; [now apply split_not_nil in E | reflexivity].
  - destruct (split r sep) as [|h t] eqn:E; [now apply split_not_nil in E|].
    simpl hd; simpl tl. rewrite trimEnd_cons.
    destruct (trimEnd r) as [|a u] eqn:Er.
    + simpl in IH. destruct t as [|t1 t']; [|destruct t'; discriminate].
      simpl in IH. injection IH as IH. simpl mapLast. rewrite <- IH.
      destruct (isWhiteSpace c); [reflexivity|].
      rewrite split_cons. destruct (Ascii.eqb_spec c sep); [congruence | reflexivity].
    + rewrite split_cons. destruct (Ascii.eqb_spec c sep); [congruence|].
      rewrite IH. destruct t as [|t1 t']; simpl.
      * destruct (trimEnd h) eqn:Eh; [|reflexivity].
        simpl mapLast in IH. rewrite Eh in IH.
        now apply split_singleton_empty in IH.
      * reflexivity.
Qed.

Lemma map_trim_mapHead (l : list string) :
  map trim (mapHead trimStart l) = map trim l.
Proof. destruct l; simpl; [reflexivity | now rewrite trim_trimStart]. Qed.

Lemma map_trim_mapLast (l : list string) :
  map trim (mapLast trimEnd l) = map trim l.
Proof.
  induction l as [|x t IH]; [reflexivity|].
  destruct t as [|y t']; [simpl; now rewrite trim_trimEnd|].
  change (mapLast trimEnd (x :: y :: t')) with (x :: mapLast trimEnd (y :: t')).
  change (map trim (x :: mapLast trimEnd (y :: t')))
    with (trim x :: map trim (mapLast trimEnd (y :: t'))).
  rewrite IH. reflexivity.
Qed.

(** Trimming the whole string first does not change the trimmed pieces. *)
Lemma map_trim_split_trim (s : string) (sep : ascii) :
  isWhiteSpace sep = false ->
  map trim (split (trim s) sep) = map trim (split s sep).
Proof.
  intros H. unfold trim at 2.
  now rewrite split_trimEnd, map_trim_mapLast, split_trimStart, map_trim_mapHead.
Qed.

Lemma hd_split (s : string) (sep : ascii) :
  hd EmptyString (split s sep) = fst (splitFirst s sep).
Proof.
  induction s as [|c r IH]; [reflexivity|].
  rewrite split_cons. simpl splitFirst.
  destruct (Ascii.eqb c sep); [reflexivity|].
  destruct (splitFirst r sep) as [h t]. simpl in *. now rewrite IH.
Qed.

Lemma splitFirst_no_sep (s : string) (sep : ascii) :
  mem sep s = false -> splitFirst s sep = (s, None).
Proof.
  induction s as [|c r IH]; [reflexivity|]. simpl.
  intros H. apply orb_false_elim in H as [Hc Hr]. now rewrite Hc, (IH Hr).
Qed.

Lemma splitFirst_app_sep (x : string) (sep : ascii) (y : string) :
  mem sep x = false -> splitFirst (x ++ String sep y) sep = (x, Some y).
Proof.
  induction x as [|c r IH]; simpl.
  - intros _. now rewrite Ascii.eqb_refl.
  - intros H. apply orb_false_elim in H as [Hc Hr]. now rewrite Hc, (IH Hr).
Qed.

End SplitFacts.

(** ** The name parser *)

Module NameFacts.
Import JS Spec JSFacts SplitFacts ImageUrl.

Lemma hash_not_white : isWhiteSpace "#" = false.
Proof. reflexivity. Qed.

Lemma hd_map_trim (l : list string) :
  trim (hd EmptyString l) = hd EmptyString (map trim l).
Proof. destruct l; reflexivity. Qed.

Lemma nth_error_map_trim (l : list string) (n : nat) :
  option_map trim (nth_error l n) = nth_error (map trim l) n.
Proof.
  revert l; induction n as [|n IH]; intros [|x t]; simpl; auto.
Qed.

(** The base name the code computes is the trimmed text before the first
    [#] of the raw name. *)
Lemma baseName_before_first_hash (s : string) :
  trim (hd EmptyString (split (trim s) "#")) = trim (fst (splitFirst s "#")).
Proof.
  rewrite hd_map_trim, (map_trim_split_trim _ _ hash_not_white),
    <- hd_map_trim, hd_split.
  reflexivity.
Qed.

(** [parseItemName] in terms of the pieces of the untrimmed name. *)
Lemma parseItemName_pieces (s : string) :
  parseItemName s =
  if mem "#" s then
    {| baseName := trim (hd EmptyString (split s "#"));
       variant := option_map trim (nth_error (split s "#") 1) |}
  else {| baseName := trim s; variant := None |}.
Proof.
  unfold parseItemName.
  rewrite includes_char, (mem_trim _ _ hash_not_white).
  destruct (mem "#" s); [|reflexivity].
  rewrite !hd_map_trim, !nth_error_map_trim,
    (map_trim_split_trim _ _ hash_not_white).
  reflexivity.
Qed.

Lemma parseItemName_no_hash (s : string) :
  mem "#" s = false -> parseItemName s = {| baseName := trim s; variant := None |}.
Proof. intros H. now rewrite parseItemName_pieces, H. Qed.

Lemma parseItemName_one_hash (b t : string) :
  mem "#" b = false -> mem "#" t = false ->
  parseItemName (b ++ "#" ++ t) = {| baseName := trim b; variant := Some (trim t) |}.
Proof.
  intros Hb Ht. rewrite parseItemName_pieces, mem_app. simpl mem at 2.
  rewrite orb_true_r. simpl append.
  rewrite (split_app_sep _ _ _ Hb), (split_no_sep _ _ Ht). reflexivity.
Qed.

(** With a second [#] the code binds only the piece between the first two
    delimiters; the rest of the name is dropped. *)
Lemma parseItemName_second_hash (b v rest : string) :
  mem "#" b = false -> mem "#" v = false ->
  parseItemName (b ++ "#" ++ v ++ "#" ++ rest)
  = {| baseName := trim b; variant := Some (trim v) |}.
Proof.
  intros Hb Hv. rewrite parseItemName_pieces, mem_app. simpl mem at 2.
  rewrite orb_true_r. simpl append.
  rewrite (split_app_sep _ _ _ Hb), (split_app_sep _ _ _ Hv). reflexivity.
Qed.

Lemma parseItemName_spec_one_hash (b t : string) :
  mem "#" b = false ->
  parseItemName_spec (b ++ "#" ++ t) = {| baseName := trim b; variant := Some (trim t) |}.
Proof.
  intros Hb. unfold parseItemName_spec. simpl append.
  now rewrite (splitFirst_app_sep _ _ _ Hb).
Qed.

Lemma variant_present_iff (raw : string) :
  variant (parseItemName raw) <> None <-> mem "#" raw = true.
Proof.
  rewrite parseItemName_pieces. destruct (mem "#" raw) eqn:E; simpl.
  - split; [reflexivity|]. intros _.
    assert (H : exists x y t, split raw "#" = x :: y :: t).
    { clear -E. induction raw as [|c r IH]; [discriminate|].
      rewrite split_cons. simpl in E.
      destruct (Ascii.eqb c "#") eqn:C.
      - destruct (split r "#") as [|y t] eqn:S; [now apply split_not_nil in S|].
        now exists EmptyString, y, t.
      - destruct (IH E) as (x & y & t & ->). simpl. now exists (String c x), y, t. }
    destruct H as (x & y & t & ->). discriminate.
  - split; [congruence | discriminate].
Qed.

(** C1.  A raw name with a second [#]: the code reports as variant only the
    text between the first and the second delimiter, where a single split on
    the first occurrence keeps everything after the first delimiter. *)
Theorem parseItemName_drops_text_after_second_hash :
  parseItemName "Antidote#(1)#old"
    = {| baseName := "Antidote"; variant := Some "(1)" |}
  /\ parseItemName_spec "Antidote#(1)#old"
    = {| baseName := "Antidote"; variant := Some "(1)#old" |}
  /\ parseItemName "Antidote#(1)#old" <> parseItemName_spec "Antidote#(1)#old".
Proof. repeat split; vm_compute; try reflexivity; discriminate. Qed.

(** C2, as stated, fails: a name that ends in [#] is reported with the
    empty string as its variant. *)
Lemma trailing_hash_reports_variant : ~ variantOnlyWithText "Abyssal whip#".
Proof.
  unfold variantOnlyWithText. intros H.
  destruct H as (t & Ht & Hne); [vm_compute; discriminate|].
  vm_compute in Ht. injection Ht as <-. now apply Hne.
Qed.

(** C2, amended.  [parseItemName] reports a variant exactly when the raw
    name contains [#]; for a name with a single [#] the variant is the
    trimmed text after it (the empty string when nothing follows), and the
    base name is the trimmed text before it; a name without [#] has no
    variant and its base name is the whole input trimmed. *)
Theorem parseItemName_variant (raw b t : string) :
  mem "#" b = false -> mem "#" t = false ->
  (variant (parseItemName raw) <> None <-> mem "#" raw = true)
  /\ parseItemName (b ++ "#" ++ t)
     = {| baseName := trim b; variant := Some (trim t) |}
  /\ parseItemName (b ++ "#") = {| baseName := trim b; variant := Some "" |}
  /\ parseItemName b = {| baseName := trim b; variant := None |}.
Proof.
  intros Hb Ht. split; [apply variant_present_iff|].
  split; [now apply parseItemName_one_hash|].
  split; [|now apply parseItemName_no_hash].
  now apply (parseItemName_one_hash b EmptyString).
Qed.

Lemma parseItemName_variant_witness :
  (variant (parseItemName "Amulet of glory#1") <> None
     <-> mem "#" "Amulet of glory#1" = true)
  /\ parseItemName ("Amulet of glory " ++ "#" ++ " 1")
     = {| baseName := "Amulet of glory"; variant := Some "1" |}
  /\ parseItemName ("Amulet of glory " ++ "#")
     = {| baseName := "Amulet of glory"; variant := Some "" |}
  /\ parseItemName "Amulet of glory "
     = {| baseName := "Amulet of glory"; variant := None |}.
Proof.
  exact (parseItemName_variant "Amulet of glory#1" "Amulet of glory " " 1"
           eq_refl eq_refl).
Defined.

End NameFacts.

(** ** File names and URLs *)

Module FilenameFacts.
Import JS Spec JSFacts SplitFacts ImageUrl NameFacts.

(** The eight successive global replacements of [constructImageFilename]. *)
Lemma replacements_cons (c : ascii) (s : string) :
  replace_g (replace_g (replace_g (replace_g (replace_g (replace_g (replace_g
    (replace_g (String c s) " " "_") "'" "%27") "(" "%28") ")" "%29")
    "#" "%23") "+" "%2B") "?" "%3F") "&" "%26"
  = encodeChar c ++
    replace_g (replace_g (replace_g (replace_g (replace_g (replace_g (replace_g
      (replace_g s " " "_") "'" "%27") "(" "%28") ")" "%29")
      "#" "%23") "+" "%2B") "?" "%3F") "&" "%26".
Proof.
  each_char c; reflexivity.
Qed.

(** No replacement rewrites the output of an earlier one: the chain is the
    one-pass encoding. *)
Lemma replacements_encode (s : string) :
  replace_g (replace_g (replace_g (replace_g (replace_g (replace_g (replace_g
    (replace_g s " " "_") "'" "%27") "(" "%28") ")" "%29")
    "#" "%23") "+" "%2B") "?" "%3F") "&" "%26"
  = encode s.
Proof.
  induction s as [|c r IH]; [reflexivity|].
  rewrite replacements_cons, IH. reflexivity.
Qed.

(** The name the encoder works on, when the variant is not included. *)
Lemma filename_stem (raw : string) :
  (if includes (trim raw) "#"
   then trim (hd EmptyString (split (trim raw) "#"))
   else trim raw)
  = trim (fst (splitFirst raw "#")).
Proof.
  rewrite includes_char, (mem_trim _ _ hash_not_white).
  destruct (mem "#" raw) eqn:E.
  - apply baseName_before_first_hash.
  - now rewrite (splitFirst_no_sep _ _ E).
Qed.

Lemma constructImageFilename_without_variant (raw : string) (iv : option bool) :
  iv <> Some true -> constructImageFilename raw iv = detailFilename raw.
Proof.
  intros Hiv. unfold constructImageFilename, detailFilename.
  rewrite replacements_encode. f_equal. f_equal.
  rewrite <- filename_stem.
  destruct (includes (trim raw) "#"); [|reflexivity].
  destruct iv as [[]|]; [congruence | |]; now rewrite andb_false_r.
Qed.

Lemma baseName_spec (raw : string) :
  baseName (parseItemName raw) = trim (fst (splitFirst raw "#")).
Proof.
  unfold parseItemName. rewrite <- filename_stem.
  destruct (includes (trim raw) "#"); reflexivity.
Qed.

(** Characters outside the eight of the table are copied unchanged. *)
Lemma encodeChar_other (c : ascii) :
  c <> " "%char -> c <> "'"%char -> c <> "("%char -> c <> ")"%char ->
  c <> "#"%char -> c <> "+"%char -> c <> "?"%char -> c <> "&"%char ->
  encodeChar c = String c EmptyString.
Proof.
  each_char c; intros; try reflexivity; congruence.
Qed.

(** C5.  With its default options [constructImageFilename] returns the
    trimmed text before the first [#] (the base name of [parseItemName]),
    encoded in one pass - space to underscore, the seven characters of the
    table to their percent codes, every other character copied - followed by
    [_detail.png]. *)
Theorem constructImageFilename_default (raw : string) :
  constructImageFilename raw None
    = encode (baseName (parseItemName raw)) ++ "_detail.png"
  /\ baseName (parseItemName raw) = trim (fst (splitFirst raw "#"))
  /\ (forall c r, encode (String c r) = encodeChar c ++ encode r)
  /\ (encodeChar " ", encodeChar "'", encodeChar "(", encodeChar ")",
      encodeChar "#", encodeChar "+", encodeChar "?", encodeChar "&")
     = ("_", "%27", "%28", "%29", "%23", "%2B", "%3F", "%26")
  /\ (forall c, mem c " '()#+?&" = false -> encodeChar c = String c EmptyString)
  /\ constructImageFilename "Abyssal bludgeon" None = "Abyssal_bludgeon_detail.png"
  /\ constructImageFilename "'24-carat' sword" None = "%2724-carat%27_sword_detail.png"
  /\ constructImageFilename "Adamant arrow#(p++)" None = "Adamant_arrow_detail.png".
Proof.
  split.
  { rewrite baseName_spec.
    apply constructImageFilename_without_variant. discriminate. }
  split; [apply baseName_spec|].
  split; [reflexivity|].
  split; [reflexivity|].
  split; [|repeat split; reflexivity].
  intros c H. simpl in H.
  repeat (apply orb_false_elim in H as [? H]).
  apply encodeChar_other; intros ->; discriminate.
Qed.

(** C6.  For every name and every options value whose width, when given, is
    a safe integer, the URL is the fixed base, then either the thumbnail
    path with the width (120 by default) or the file itself. *)
Theorem getItemImageUrl_format (raw : string) (options : ImageUrlOptions) :
  safeWidth options = true ->
  getItemImageUrl raw options
  = match useThumb options with
    | Some false =>
        "https://oldschool.runescape.wiki/images/" ++ detailFilename raw
    | _ =>
        "https://oldschool.runescape.wiki/images/thumb/" ++ detailFilename raw
          ++ "/"
          ++ Number_toString (match width options with Some w => w | None => 120 end)
          ++ "px-" ++ detailFilename raw
    end
  /\ detailFilename raw = constructImageFilename raw None
  /\ Number_toString 120 = "120"
  /\ getItemImageUrl "Abyssal bludgeon" noOptions
     = "https://oldschool.runescape.wiki/images/thumb/Abyssal_bludgeon_detail.png/120px-Abyssal_bludgeon_detail.png"
  /\ getItemImageUrl "Abyssal bludgeon" {| width := Some 96; useThumb := None |}
     = "https://oldschool.runescape.wiki/images/thumb/Abyssal_bludgeon_detail.png/96px-Abyssal_bludgeon_detail.png"
  /\ getItemImageUrl "Abyssal bludgeon" {| width := None; useThumb := Some false |}
     = "https://oldschool.runescape.wiki/images/Abyssal_bludgeon_detail.png".
Proof.
  intros _.
  assert (F : constructImageFilename raw None = detailFilename raw)
    by (apply constructImageFilename_without_variant; discriminate).
  split; [|split; [now rewrite F | repeat split; reflexivity]].
  unfold getItemImageUrl. rewrite F.
  destruct options as [w [[]|]]; reflexivity.
Qed.

Lemma getItemImageUrl_format_witness :
  safeWidth {| width := Some 96; useThumb := None |} = true
  /\ getItemImageUrl "Amulet of glory#1" {| width := Some 96; useThumb := None |}
     = "https://oldschool.runescape.wiki/images/thumb/Amulet_of_glory_detail.png/96px-Amulet_of_glory_detail.png".
Proof.
  split; [reflexivity|].
  exact (proj1 (getItemImageUrl_format "Amulet of glory#1"
                  {| width := Some 96; useThumb := None |} eq_refl)).
Defined.

(** C7.  The two fields of [getItemImageUrls] hold the same string, and the
    base file name is the file name [constructImageFilename] gives with its
    default options. *)
Theorem variant_and_base_builders_agree (raw : string) (options : ImageUrlOptions) :
  variantUrl (getItemImageUrls raw options) = baseUrl (getItemImageUrls raw options)
  /\ baseUrl (getItemImageUrls raw options) = getItemImageUrl raw options
  /\ constructBaseImageFilename raw = constructImageFilename raw None
  /\ constructBaseImageFilename raw = constructImageFilename raw (Some false).
Proof.
  repeat split.
Qed.

End FilenameFacts.

(** ** Decimal numerals and [parseInt] *)

Module NumberFacts.
Import JS Spec JSFacts.

Lemma digit_not_white (c : ascii) : isDigit c = true -> isWhiteSpace c = false.
Proof. each_char c; vm_compute; congruence. Qed.

Lemma digit_not_sign (c : ascii) :
  isDigit c = true -> c <> "-"%char /\ c <> "+"%char.
Proof.
  each_char c; vm_compute; intros; split; congruence.
Qed.

Lemma every_digit_uint (d : Decimal.uint) :
  every isDigit (NilEmpty.string_of_uint d) = true.
Proof. induction d; simpl; auto. Qed.

Lemma showN_digits (n : N) : every isDigit (showN n) = true.
Proof. apply every_digit_uint. Qed.

Lemma to_uint_not_nil (n : N) : N.to_uint n <> Decimal.Nil.
Proof.
  destruct n as [|p]; [discriminate|]. apply DecimalPos.Unsigned.to_uint_nonnil.
Qed.

Lemma showN_not_empty (n : N) : showN n <> EmptyString.
Proof.
  unfold showN. pose proof (to_uint_not_nil n) as H.
  destruct (N.to_uint n); simpl; congruence.
Qed.







End NumberFacts.

(** ** The id-list parser *)

Module IdFacts.
Import JS Spec JSFacts SplitFacts NumberFacts Scrape.

(** *** Ranges *)






(** *** Tokens *)

Lemma comma_not_white : isWhiteSpace "," = false.
Proof. reflexivity. Qed.

Lemma hyphen_not_white : isWhiteSpace "-" = false.
Proof. reflexivity. Qed.





(** *** The parser on untrimmed text *)

Lemma rangeBounds_trim (s : string) : rangeBounds (trim s) = rangeBounds s.
Proof.
  unfold rangeBounds.
  rewrite <- !(map_map trim parseInt), (map_trim_split_trim _ _ hyphen_not_white).
  reflexivity.
Qed.

Lemma pushPart_trim (ids : list jsnum) (part : string) :
  pushPart ids (trim part) = pushPart ids part.
Proof. unfold pushPart. now rewrite trim_idem. Qed.

Lemma fold_pushPart_trim (l : list string) (ids : list jsnum) :
  fold_left pushPart (map trim l) ids = fold_left pushPart l ids.
Proof.
  revert ids; induction l as [|p t IH]; intros ids; [reflexivity|].
  simpl. now rewrite pushPart_trim, IH.
Qed.

Lemma pushPart_untrimmed (ids : list jsnum) (part : string) :
  pushPart ids part =
  if mem "-" part then
    let '(start, stop) := rangeBounds part in pushRange start stop ids
  else (ids ++ [parseInt (trim part)])%list.
Proof.
  unfold pushPart.
  now rewrite includes_char, (mem_trim _ _ hyphen_not_white), rangeBounds_trim.
Qed.

Lemma parseItemIds_untrimmed (s : string) :
  parseItemIds s =
  if mem "," s then Sequence (fold_left pushPart (split s ",") [])
  else if mem "-" s then
         let '(start, stop) := rangeBounds s in Sequence (pushRange start stop [])
       else Scalar (parseInt (trim s)).
Proof.
  unfold parseItemIds.
  rewrite !includes_char, (mem_trim _ _ comma_not_white),
    (mem_trim _ _ hyphen_not_white), rangeBounds_trim.
  destruct (mem "," s); [|reflexivity].
  now rewrite <- fold_pushPart_trim, (map_trim_split_trim _ _ comma_not_white),
    fold_pushPart_trim.
Qed.

(** *** Rendered parts *)







End IdFacts.

(** ** The id-list parser against the grammar *)

Module IdListParser.
Import JS Spec JSFacts SplitFacts NumberFacts Scrape IdFacts.



(** C4.  Malformed numeric text does not make [parseItemIds] fail: the
    result carries [NaN] (or silently loses the part), and a numeric prefix
    is accepted. *)
Theorem parseItemIds_malformed_gives_NaN :
  parseItemIds "abc" = Scalar NaN
  /\ parseItemIds "" = Scalar NaN
  /\ parseItemIds "12, x" = Sequence [Num 12; NaN]
  /\ parseItemIds "7-x" = Sequence []
  /\ parseItemIds "12abc" = Scalar (Num 12).
Proof. repeat split; vm_compute; reflexivity. Qed.



End IdListParser.

(** ** The catalogue *)

Module CatalogFacts.
Import JS Spec JSFacts Catalog.

Lemma matchesId_spec (q : Z) (item : OsrsItem) :
  matchesId q item = true <-> idMatches q item.
Proof.
  unfold matchesId, idMatches. destruct (id item) as [n|l].
  - rewrite Z.eqb_eq. split.
    + intros ->. now left.
    + intros [H|(l & H & _)]; congruence.
  - rewrite existsb_exists. split.
    + intros (x & Hx & E). apply Z.eqb_eq in E as <-. right. now exists l.
    + intros [H|(l' & H & Hin)]; [congruence|].
      injection H as <-. exists q. split; [assumption | apply Z.eqb_refl].
Qed.

Lemma matchesId_false (q : Z) (item : OsrsItem) :
  matchesId q item = false <-> ~ idMatches q item.
Proof. rewrite <- matchesId_spec. now destruct (matchesId q item). Qed.

Lemma find_hd_filter {A : Type} (p : A -> bool) (l : list A) :
  find p l = hd_error (filter p l).
Proof.
  induction l as [|x t IH]; [reflexivity|]. simpl. now destruct (p x).
Qed.

Lemma find_first {A : Type} (p : A -> bool) (l : list A) (x : A) :
  find p l = Some x <->
  exists pre post, l = (pre ++ x :: post)%list /\ p x = true
                   /\ forall y, In y pre -> p y = false.
Proof.
  induction l as [|a t IH]; simpl.
  - split; [discriminate|]. intros (pre & post & H & _). now destruct pre.
  - destruct (p a) eqn:E.
    + split.
      * intros [= ->]. exists [], t. repeat split; [assumption | intros y []].
      * intros (pre & post & H & Hx & Hpre). destruct pre as [|b pre'].
        -- simpl in H. now injection H as ->.
        -- simpl in H. injection H as <- _.
           rewrite (Hpre a (or_introl eq_refl)) in E. discriminate.
    + rewrite IH. split.
      * intros (pre & post & -> & Hx & Hpre). exists (a :: pre), post.
        repeat split; [assumption|]. intros y [<-|Hy]; auto.
      * intros (pre & post & H & Hx & Hpre). destruct pre as [|b pre'].
        -- simpl in H. injection H as -> _. congruence.
        -- simpl in H. injection H as _ ->. exists pre', post.
           repeat split; [assumption|]. intros y Hy. apply Hpre. now right.
Qed.

Lemma filter_filter {A : Type} (p q : A -> bool) (l : list A) :
  filter q (filter p l) = filter (fun x => p x && q x) l.
Proof.
  induction l as [|x t IH]; [reflexivity|]. simpl.
  destruct (p x); simpl; [destruct (q x)|]; now rewrite IH.
Qed.

Lemma filter_true {A : Type} (l : list A) : filter (fun _ => true) l = l.
Proof. induction l as [|x t IH]; simpl; [reflexivity | now rewrite IH]. Qed.

Lemma startsWith_spec (s p : string) :
  startsWith s p = true <-> exists post, s = p ++ post.
Proof.
  revert s; induction p as [|a p' IH]; intros s; simpl.
  - split; [intros _; now exists s | intros _; now destruct s].
  - destruct s as [|b s'].
    + split; [discriminate | intros (post & H); discriminate].
    + cbn [startsWith]. rewrite andb_true_iff, IH, Ascii.eqb_eq. split.
      * intros (-> & post & ->). now exists post.
      * intros (post & [= -> ->]). split; [reflexivity | now exists post].
Qed.

(** [includes] is the substring test. *)
Lemma includes_spec (s sub : string) :
  includes s sub = true <-> exists pre post, s = pre ++ sub ++ post.
Proof.
  split.
  - induction s as [|c r IH]; cbn [includes]; rewrite orb_true_iff, startsWith_spec.
    + intros [(post & H)|H]; [|discriminate]. now exists EmptyString, post.
    + intros [(post & H)|H]; [now exists EmptyString, post|].
      destruct (IH H) as (pre & post & ->). now exists (String c pre), post.
  - intros (pre & post & ->). induction pre as [|c pre' IH].
    + simpl append. assert (H : startsWith (sub ++ post) sub = true)
        by (apply startsWith_spec; now exists post).
      destruct (sub ++ post); cbn [includes]; rewrite H; reflexivity.
    + cbn [append includes]. rewrite IH. apply orb_true_r.
Qed.

Lemma satisfiesb_spec (f : ItemFilter) (item : OsrsItem) :
  satisfiesb f item = true <-> satisfies f item.
Proof.
  unfold satisfiesb, satisfies, containsIgnoreCase.
  rewrite andb_true_iff. split.
  - intros [Hn Hv]. split; [|split].
    + intros q Hq. rewrite Hq in Hn. now apply includes_spec.
    + intros E. rewrite E in Hv. destruct (variant item); congruence.
    + intros E. rewrite E in Hv. destruct (variant item); congruence.
  - intros (Hn & Ht & Hf). split.
    + destruct (nameContains f) as [q|]; [|reflexivity].
      apply includes_spec. now apply Hn.
    + destruct (hasVariant f) as [[]|], (variant item) eqn:E; try reflexivity.
      * now destruct (Ht eq_refl).
      * specialize (Hf eq_refl). discriminate.
Qed.

(** C8.  [getItemById] returns the first item of the dataset whose id
    matches the query (scalar equal to it, or sequence containing it) and
    nothing when no item matches; it is the head of [getItemsById], which
    keeps exactly the matching items in dataset order. *)
Theorem getItemById_first_match (itemsData : list OsrsItem) (q : Z) :
  (forall item,
      getItemById itemsData q = Some item <->
      exists pre post, itemsData = (pre ++ item :: post)%list
                       /\ idMatches q item
                       /\ forall other, In other pre -> ~ idMatches q other)
  /\ (getItemById itemsData q = None <->
      forall item, In item itemsData -> ~ idMatches q item)
  /\ getItemById itemsData q = hd_error (getItemsById itemsData q)
  /\ (forall item,
        In item (getItemsById itemsData q) <-> In item itemsData /\ idMatches q item)
  /\ (forall l1 l2,
        getItemsById (l1 ++ l2)%list q
        = (getItemsById l1 q ++ getItemsById l2 q)%list)
  /\ (forall item, idMatches q item -> getItemsById [item] q = [item])
  /\ (forall item, ~ idMatches q item -> getItemsById [item] q = []).
Proof.
  unfold getItemById, getItemsById. repeat split.
  - intros H. apply find_first in H as (pre & post & H & Hx & Hpre).
    exists pre, post. repeat split; [assumption | now apply matchesId_spec |].
    intros other Hin. apply matchesId_false. now apply Hpre.
  - intros (pre & post & H & Hx & Hpre). apply find_first.
    exists pre, post. repeat split; [assumption | now apply matchesId_spec |].
    intros other Hin. apply matchesId_false. now apply Hpre.
  - intros H item Hin. apply matchesId_false. exact (find_none _ _ H item Hin).
  - intros H. destruct (find (matchesId q) itemsData) as [x|] eqn:E; [|reflexivity].
    apply find_some in E as [Hin Hm].
    apply matchesId_spec in Hm. now destruct (H x Hin).
  - apply find_hd_filter.
  - now apply filter_In in H.
  - apply filter_In in H as [_ H]. now apply matchesId_spec.
  - intros [Hin Hm]. apply filter_In. split; [assumption | now apply matchesId_spec].
  - intros l1 l2. apply filter_app.
  - intros item H. apply matchesId_spec in H. simpl. now rewrite H.
  - intros item H. apply matchesId_false in H. simpl. now rewrite H.
Qed.

Lemma getAllItems_getFiltered (itemsData : list OsrsItem) (f : ItemFilter) :
  getAllItems itemsData (Some f) = getFiltered itemsData f.
Proof.
  unfold getAllItems.
  change (getFiltered itemsData f)
    with (applyLimit (limit f) (filter (satisfiesb f) itemsData)).
  f_equal. unfold satisfiesb.
  destruct (nameContains f) as [qs|], (hasVariant f) as [[]|];
    rewrite ?filter_filter;
    [.. | rewrite <- (filter_true itemsData) at 1];
    apply filter_ext; intros x; simpl; destruct (variant x);
    rewrite ?andb_true_r; reflexivity.
Qed.

(** C9.  [getAllItems] keeps, in dataset order, exactly the items that
    satisfy every predicate the filter gives, and then caps the result at
    the first [limit] items when a positive limit is given. *)
Theorem getAllItems_filter (itemsData : list OsrsItem) (f : ItemFilter) :
  getAllItems itemsData (Some f) = getFiltered itemsData f
  /\ getAllItems itemsData None = itemsData
  /\ (forall item, satisfiesb f item = true <-> satisfies f item)
  /\ (forall item,
        In item (filter (satisfiesb f) itemsData)
        <-> In item itemsData /\ satisfies f item)
  /\ (forall n, limit f = Some n -> 0 < n ->
        getAllItems itemsData (Some f)
        = firstn (Z.to_nat n) (filter (satisfiesb f) itemsData))
  /\ (forall n, limit f = Some n -> n <= 0 ->
        getAllItems itemsData (Some f) = filter (satisfiesb f) itemsData)
  /\ (limit f = None ->
        getAllItems itemsData (Some f) = filter (satisfiesb f) itemsData).
Proof.
  assert (E : getAllItems itemsData (Some f) = getFiltered itemsData f)
    by apply getAllItems_getFiltered.
  split; [exact E|]. split; [reflexivity|].
  split; [apply satisfiesb_spec|].
  split; [intros item; rewrite filter_In, satisfiesb_spec; reflexivity|].
  rewrite E. unfold getFiltered.
  split; [|split].
  - intros n -> Hn. now destruct (Z.ltb_spec 0 n); [|lia].
  - intros n -> Hn. now destruct (Z.ltb_spec 0 n); [lia|].
  - now intros ->.
Qed.

End CatalogFacts.

(* ================================================================== *)
(** * Part III: further properties of the code *)
(* ================================================================== *)

(** ** More on the name parser and the file names *)

Module NameExtras.
Import JS Spec JSFacts SplitFacts ImageUrl NameFacts FilenameFacts.

Lemma mem_fst_splitFirst (s : string) (sep : ascii) :
  mem sep (fst (splitFirst s sep)) = false.
Proof.
  induction s as [|c r IH]; [reflexivity|]. simpl.
  destruct (Ascii.eqb c sep) eqn:E; [reflexivity|].
  destruct (splitFirst r sep) as [h t]. simpl in *. now rewrite E, IH.
Qed.

Lemma split_pieces (s : string) (sep : ascii) :
  Forall (fun p => mem sep p = false) (split s sep).
Proof.
  induction s as [|c r IH]; [now repeat constructor|].
  rewrite split_cons. destruct (Ascii.eqb c sep) eqn:E.
  - now constructor.
  - destruct (split r sep) as [|h t]; simpl.
    + repeat constructor. simpl. now rewrite E.
    + inversion IH as [|? ? Hh Ht]; subst. constructor; [|assumption].
      simpl. now rewrite E, Hh.
Qed.

Lemma every_trimStart (s : string) :
  every isWhiteSpace (trimStart s) = every isWhiteSpace s.
Proof.
  induction s as [|c r IH]; [reflexivity|]. simpl.
  destruct (isWhiteSpace c) eqn:E; simpl; [exact IH | now rewrite E].
Qed.

Lemma trimEnd_empty_iff (s : string) :
  trimEnd s = EmptyString <-> every isWhiteSpace s = true.
Proof.
  split; [|apply trimEnd_white].
  induction s as [|c r IH]; [reflexivity|].
  rewrite trimEnd_cons. simpl every.
  destruct (trimEnd r); [|discriminate].
  destruct (isWhiteSpace c); [|discriminate]. intros _. now apply IH.
Qed.

Lemma trim_empty_iff (s : string) :
  trim s = EmptyString <-> every isWhiteSpace s = true.
Proof. unfold trim. now rewrite trimEnd_empty_iff, every_trimStart. Qed.

Lemma detailFilename_of_baseName (raw : string) :
  detailFilename (trim (fst (splitFirst raw "#"))) = detailFilename raw.
Proof.
  unfold detailFilename at 1.
  rewrite splitFirst_no_sep
    by (rewrite (mem_trim _ _ hash_not_white); apply mem_fst_splitFirst).
  simpl fst. now rewrite trim_idem.
Qed.

Lemma filename_base (raw : string) :
  constructImageFilename raw None
  = constructImageFilename (baseName (parseItemName raw)) None.
Proof.
  rewrite !constructImageFilename_without_variant by discriminate.
  now rewrite baseName_spec, detailFilename_of_baseName.
Qed.

Lemma imageUrl_base (raw : string) (options : ImageUrlOptions) :
  getItemImageUrl raw options
  = getItemImageUrl (baseName (parseItemName raw)) options.
Proof. unfold getItemImageUrl. now rewrite <- filename_base. Qed.

(** X1.  The fields [parseItemName] returns are clean: the base name and the
    variant (when there is one) contain no [#] and have no white space at
    either end. *)
Theorem parseItemName_fields_clean (raw : string) :
  mem "#" (baseName (parseItemName raw)) = false
  /\ trim (baseName (parseItemName raw)) = baseName (parseItemName raw)
  /\ (forall v, variant (parseItemName raw) = Some v ->
                mem "#" v = false /\ trim v = v).
Proof.
  rewrite baseName_spec. split; [|split].
  - rewrite (mem_trim _ _ hash_not_white). apply mem_fst_splitFirst.
  - apply trim_idem.
  - intros v. rewrite parseItemName_pieces.
    destruct (mem "#" raw); cbn [variant]; [|discriminate].
    destruct (nth_error (split raw "#") 1) as [p|] eqn:E; cbn [option_map];
      [|discriminate].
    intros [= <-]. split; [|apply trim_idem].
    rewrite (mem_trim _ _ hash_not_white).
    pose proof (split_pieces raw "#") as F. rewrite Forall_forall in F.
    apply F. eapply nth_error_In. exact E.
Qed.

(** X2.  Parsing a base name again changes nothing: it is its own base name
    and has no variant. *)
Theorem parseItemName_idempotent (raw : string) :
  parseItemName (baseName (parseItemName raw))
  = {| baseName := baseName (parseItemName raw); variant := None |}.
Proof.
  rewrite baseName_spec, parseItemName_no_hash.
  - now rewrite trim_idem.
  - rewrite (mem_trim _ _ hash_not_white). apply mem_fst_splitFirst.
Qed.

(** X3.  The base name is empty exactly when the text before the first [#]
    is blank; in particular a non-empty name such as one that starts with
    [#] has an empty base name. *)
Theorem baseName_empty_iff (raw : string) :
  baseName (parseItemName raw) = EmptyString
  <-> every isWhiteSpace (fst (splitFirst raw "#")) = true.
Proof. rewrite baseName_spec. apply trim_empty_iff. Qed.

(** X4.  The image URL and the file name depend on the raw name only through
    its base name: building them from the base name gives the same
    strings. *)
Theorem imageUrl_from_baseName (raw : string) (options : ImageUrlOptions) :
  getItemImageUrl raw options
    = getItemImageUrl (baseName (parseItemName raw)) options
  /\ constructImageFilename raw None
    = constructImageFilename (baseName (parseItemName raw)) None.
Proof. split; [apply imageUrl_base | apply filename_base]. Qed.

End NameExtras.

Module FilenameExtras.
Import JS Spec JSFacts SplitFacts ImageUrl NameFacts FilenameFacts.

Lemma append_assoc (a b c : string) : (a ++ b) ++ c = a ++ b ++ c.
Proof. induction a as [|x r IH]; simpl; [reflexivity | now rewrite IH]. Qed.

Lemma encode_app (s t : string) : encode (s ++ t) = encode s ++ encode t.
Proof.
  induction s as [|c r IH]; [reflexivity|]. simpl.
  now rewrite IH, append_assoc.
Qed.

(** The characters the encoder replaces. *)
Lemma reserved_cases (c : ascii) :
  mem c " '()#+?&" = true ->
  c = " "%char \/ c = "'"%char \/ c = "("%char \/ c = ")"%char \/
  c = "#"%char \/ c = "+"%char \/ c = "?"%char \/ c = "&"%char.
Proof.
  cbn [mem]. rewrite !orb_true_iff, !Ascii.eqb_eq. intuition congruence.
Qed.

Lemma mem_encodeChar (a c : ascii) :
  mem c " '()#+?&" = true -> mem c (encodeChar a) = false.
Proof.
  intros H. apply reserved_cases in H.
  destruct H as [->|[->|[->|[->|[->|[->|[->| ->]]]]]]]; each_char a; reflexivity.
Qed.

Lemma mem_encode (s : string) (c : ascii) :
  mem c " '()#+?&" = true -> mem c (encode s) = false.
Proof.
  intros H. induction s as [|a r IH]; [reflexivity|].
  simpl. now rewrite mem_app, (mem_encodeChar a c H), IH.
Qed.

Lemma constructImageFilename_encoded (raw : string) (iv : option bool) :
  exists stem, constructImageFilename raw iv = encode stem ++ "_detail.png".
Proof.
  unfold constructImageFilename. rewrite replacements_encode.
  eexists. reflexivity.
Qed.

(** The name [constructImageFilename] encodes, in terms of the trimmed
    pieces of the raw name. *)
Lemma constructImageFilename_pieces (raw : string) (iv : option bool) :
  constructImageFilename raw iv =
  encode
    (if mem "#" raw then
       if truthy (nth_error (map trim (split raw "#")) 1)
          && match iv with Some b => b | None => false end
       then
         hd EmptyString (map trim (split raw "#")) ++ " "
         ++ variantSuffix
              (match nth_error (map trim (split raw "#")) 1 with
               | Some v => v
               | None => EmptyString
               end)
       else hd EmptyString (map trim (split raw "#"))
     else trim raw)
  ++ "_detail.png".
Proof.
  unfold constructImageFilename. rewrite replacements_encode.
  rewrite includes_char, (mem_trim _ _ hash_not_white).
  destruct (mem "#" raw); [|reflexivity].
  rewrite !hd_map_trim, !nth_error_map_trim,
    (map_trim_split_trim _ _ hash_not_white).
  unfold variantSuffix.
  destruct (truthy _ && _); [|reflexivity].
  destruct (startsWith _ "(" && endsWith _ ")"); reflexivity.
Qed.

(** X5.  Whatever the name and the [includeVariant] flag, the file name
    contains none of the characters the encoder replaces: no space,
    apostrophe, parenthesis, [#], [+], [?] or [&]. *)
Theorem filename_has_no_reserved_character
  (raw : string) (iv : option bool) (c : ascii) :
  mem c " '()#+?&" = true ->
  mem c (constructImageFilename raw iv) = false.
Proof.
  intros H. destruct (constructImageFilename_encoded raw iv) as [stem ->].
  rewrite mem_app, (mem_encode _ _ H).
  apply reserved_cases in H.
  destruct H as [->|[->|[->|[->|[->|[->|[->| ->]]]]]]]; reflexivity.
Qed.

Lemma filename_has_no_reserved_character_witness :
  mem "'" (constructImageFilename "Ahrim's hood#(p++)" (Some true)) = false.
Proof.
  exact (filename_has_no_reserved_character "Ahrim's hood#(p++)" (Some true) "'"
           eq_refl).
Defined.

(** X6.  With [includeVariant] set, a name with one [#] and a non-blank
    variant gets the encoded base name, an underscore and the encoded
    variant - lower case, in parentheses unless it already has them; with a
    blank variant the result is the base-name file. *)
Theorem constructImageFilename_with_variant (b t : string) :
  mem "#" b = false -> mem "#" t = false ->
  constructImageFilename (b ++ "#" ++ t) (Some true)
  = match trim t with
    | EmptyString => encode (trim b) ++ "_detail.png"
    | String _ _ =>
        encode (trim b) ++ "_" ++ encode (variantSuffix (trim t)) ++ "_detail.png"
    end.
Proof.
  intros Hb Ht. rewrite constructImageFilename_pieces, mem_app.
  simpl mem at 2. rewrite orb_true_r.
  change ("#" ++ t) with (String "#" t).
  rewrite (split_app_sep _ _ _ Hb), (split_no_sep _ _ Ht).
  cbn [map hd nth_error truthy].
  destruct (trim t) as [|c r]; cbn [andb]; [reflexivity|].
  rewrite !encode_app, !append_assoc. reflexivity.
Qed.

Lemma constructImageFilename_with_variant_witness :
  constructImageFilename ("Corrupted scythe of vitur" ++ "#" ++ "Charged") (Some true)
    = "Corrupted_scythe_of_vitur_%28charged%29_detail.png"
  /\ constructImageFilename ("Adamant arrow" ++ "#" ++ "(p++)") (Some true)
    = "Adamant_arrow_%28p%2B%2B%29_detail.png".
Proof.
  split.
  - exact (constructImageFilename_with_variant
             "Corrupted scythe of vitur" "Charged" eq_refl eq_refl).
  - exact (constructImageFilename_with_variant
             "Adamant arrow" "(p++)" eq_refl eq_refl).
Defined.

End FilenameExtras.

(** ** More on the id-list parser *)

Module IdExtras.
Import JS Spec JSFacts SplitFacts NumberFacts Scrape IdFacts NameExtras.

(** Evaluate [digitValue] on the concrete characters of the goal. *)
Ltac eval_digit :=
  repeat match goal with
         | |- context [digitValue (Ascii ?a ?b ?c ?d ?e ?f ?g ?h)] =>
             let v := eval vm_compute in (digitValue (Ascii a b c d e f g h)) in
             change (digitValue (Ascii a b c d e f g h)) with v
         end;
  cbv beta iota.

Lemma trim_white (w : string) : every isWhiteSpace w = true -> trim w = EmptyString.
Proof. apply trim_empty_iff. Qed.

Lemma white_not_digit (c : ascii) : isWhiteSpace c = true -> digitValue c = None.
Proof. each_char c; vm_compute; congruence. Qed.

Lemma parseDigits_trimEnd (s : string) (acc : Z) (seen : bool) :
  parseDigits (trimEnd s) acc seen = parseDigits s acc seen.
Proof.
  revert acc seen; induction s as [|c r IH]; intros acc seen; [reflexivity|].
  rewrite trimEnd_cons. destruct (trimEnd r) as [|a u] eqn:E in |- *.
  - destruct (isWhiteSpace c) eqn:W; cbn [parseDigits].
    + now rewrite (white_not_digit _ W).
    + destruct (digitValue c); [|reflexivity].
      rewrite <- IH, E. reflexivity.
  - rewrite <- E. cbn [parseDigits]. destruct (digitValue c); [|reflexivity].
    apply IH.
Qed.

(** White space after the number does not matter to [parseInt], and white
    space before it is skipped: trimming first changes nothing. *)
Lemma parseInt_trim (s : string) : parseInt (trim s) = parseInt s.
Proof.
  unfold parseInt, trim.
  rewrite trimStart_trimEnd, trimStart_idem.
  destruct (trimStart s) as [|c r]; [reflexivity|].
  rewrite trimEnd_cons. destruct (trimEnd r) as [|a u] eqn:E.
  - destruct (isWhiteSpace c) eqn:W.
    + each_char c; try discriminate W; reflexivity.
    + rewrite <- E. each_char c; cbv beta iota; cbn [parseDigits];
        eval_digit; rewrite ?parseDigits_trimEnd; reflexivity.
  - rewrite <- E. each_char c; cbv beta iota; cbn [parseDigits];
      eval_digit; rewrite ?parseDigits_trimEnd; reflexivity.
Qed.

Lemma parseInt_white_app (l s : string) :
  every isWhiteSpace l = true -> parseInt (l ++ s) = parseInt s.
Proof. intros H. unfold parseInt. now rewrite trimStart_white_app. Qed.

Lemma parseDigits_acc_junk (d : Decimal.uint) (acc : positive) (c : ascii) (r : string) :
  isDigit c = false ->
  parseDigits (NilEmpty.string_of_uint d ++ String c r) (Z.pos acc) true
  = Some (Z.pos (Pos.of_uint_acc d acc)).
Proof.
  intros Hc.
  revert acc; induction d as [|d IH|d IH|d IH|d IH|d IH|d IH|d IH|d IH|d IH|d IH];
    intros acc;
    [ simpl; unfold isDigit in Hc; now destruct (digitValue c) | ..];
    cbn [NilEmpty.string_of_uint Pos.of_uint_acc append]; rewrite <- IH;
    cbn [parseDigits];
    match goal with
    | |- context [digitValue ?x] =>
        let v := eval vm_compute in (digitValue x) in change (digitValue x) with v
    end;
    cbv iota beta; f_equal; lia.
Qed.

Lemma parseDigits_uint_junk (d : Decimal.uint) (seen : bool) (c : ascii) (r : string) :
  isDigit c = false -> d <> Decimal.Nil \/ seen = true ->
  parseDigits (NilEmpty.string_of_uint d ++ String c r) 0 seen
  = Some (Z.of_N (Pos.of_uint d)).
Proof.
  intros Hc.
  revert seen; induction d as [|d IH|d IH|d IH|d IH|d IH|d IH|d IH|d IH|d IH|d IH];
    intros seen H.
  - destruct H as [H| ->]; [congruence|].
    simpl. unfold isDigit in Hc. now destruct (digitValue c).
  - cbn [NilEmpty.string_of_uint parseDigits Pos.of_uint append].
    change (digitValue "0") with (Some 0). cbv iota beta.
    change (10 * 0 + 0) with 0. apply IH. now right.
  - exact (parseDigits_acc_junk d 1 c r Hc).
  - exact (parseDigits_acc_junk d 2 c r Hc).
  - exact (parseDigits_acc_junk d 3 c r Hc).
  - exact (parseDigits_acc_junk d 4 c r Hc).
  - exact (parseDigits_acc_junk d 5 c r Hc).
  - exact (parseDigits_acc_junk d 6 c r Hc).
  - exact (parseDigits_acc_junk d 7 c r Hc).
  - exact (parseDigits_acc_junk d 8 c r Hc).
  - exact (parseDigits_acc_junk d 9 c r Hc).
Qed.

(** [parseInt] stops at the first character that is not a digit and keeps
    the number read so far. *)
Lemma parseInt_showN_junk (n : N) (c : ascii) (r : string) :
  isDigit c = false -> parseInt (showN n ++ String c r) = Num (Z.of_N n).
Proof.
  intros Hc. unfold parseInt.
  pose proof (showN_digits n) as Hd. pose proof (showN_not_empty n) as Hne.
  assert (Hp : parseDigits (showN n ++ String c r) 0 false = Some (Z.of_N n)).
  { unfold showN. rewrite parseDigits_uint_junk by (auto; left; apply to_uint_not_nil).
    change (Pos.of_uint (N.to_uint n)) with (N.of_uint (N.to_uint n)).
    now rewrite DecimalN.Unsigned.of_to. }
  destruct (showN n) as [|a u]; [congruence|].
  simpl in Hd. apply andb_prop in Hd as [Ha _].
  cbn [append] in *. cbn [trimStart]. rewrite (digit_not_white _ Ha).
  destruct (digit_not_sign _ Ha) as [Hm Hpl].
  assert (E : (let '(sign, body) :=
                 match String a (u ++ String c r) with
                 | String "-" r0 => (-1, r0)
                 | String "+" r0 => (1, r0)
                 | _ => (1, String a (u ++ String c r))
                 end in
               match parseDigits body 0 false with
               | Some m => Num (sign * m)
               | None => NaN
               end)
              = match parseDigits (String a (u ++ String c r)) 0 false with
                | Some m => Num (1 * m)
                | None => NaN
                end).
  { each_char a; try reflexivity; congruence. }
  rewrite E, Hp. f_equal. lia.
Qed.


(** The scalar branch and the two sequence branches on the untrimmed text,
    with [parseInt] applied to the text as given. *)
Lemma parseItemIds_branches (s : string) :
  parseItemIds s =
  if mem "," s then Sequence (fold_left pushPart (split s ",") [])
  else if mem "-" s then
         Sequence (pushRange (fst (rangeBounds s)) (snd (rangeBounds s)) [])
       else Scalar (parseInt s).
Proof.
  rewrite parseItemIds_untrimmed, parseInt_trim.
  now destruct (rangeBounds s).
Qed.



(** X8.  White space around the whole id text is ignored. *)
Theorem parseItemIds_ignores_outer_white_space (l s r : string) :
  every isWhiteSpace l = true -> every isWhiteSpace r = true ->
  parseItemIds (l ++ s ++ r) = parseItemIds s.
Proof.
  intros Hl Hr. unfold parseItemIds.
  now rewrite (trim_white_app _ _ Hl), (trim_app_white _ _ Hr).
Qed.

Lemma parseItemIds_ignores_outer_white_space_witness :
  parseItemIds ("  " ++ "100-102, 200" ++ " ") = parseItemIds "100-102, 200".
Proof.
  exact (parseItemIds_ignores_outer_white_space "  " "100-102, 200" " "
           eq_refl eq_refl).
Defined.

(** X9.  A leading minus sign is read as a range without a start: a negative
    number alone gives the empty sequence, and as a part of a
    comma-separated list it adds nothing. *)
Theorem leading_hyphen_gives_nothing (l s : string) (ids : list jsnum) :
  every isWhiteSpace l = true ->
  (mem "," s = false -> parseItemIds (l ++ "-" ++ s) = Sequence [])
  /\ pushPart ids (l ++ "-" ++ s) = ids.
Proof.
  intros Hl.
  assert (Hm : mem "-" (l ++ "-" ++ s) = true)
    by (rewrite mem_app; simpl; now rewrite orb_true_r).
  assert (Hb : fst (rangeBounds (l ++ "-" ++ s)) = NaN).
  { unfold rangeBounds. change ("-" ++ s) with (String "-" s).
    rewrite (split_app_sep _ _ _ (every_mem _ _ _ Hl hyphen_not_white)).
    cbn [map]. rewrite (trim_white _ Hl).
    destruct (map _ (split s "-")); reflexivity. }
  split.
  - intros Hs. rewrite parseItemIds_branches, Hm, Hb, mem_app.
    rewrite (every_mem _ _ _ Hl comma_not_white). simpl. now rewrite Hs.
  - rewrite pushPart_untrimmed, Hm.
    destruct (rangeBounds (l ++ "-" ++ s)) as [a b]. simpl in Hb. now subst a.
Qed.

Lemma leading_hyphen_gives_nothing_witness :
  parseItemIds (" " ++ "-" ++ "5") = Sequence []
  /\ pushPart [Num 1] (" " ++ "-" ++ "5") = [Num 1].
Proof.
  destruct (leading_hyphen_gives_nothing " " "5" [Num 1] eq_refl) as [H1 H2].
  split; [exact (H1 eq_refl) | exact H2].
Defined.



(** X11.  Text after a number is not rejected: when a safe integer is
    followed by a character that is not a digit, the number read so far is
    the result. *)
Theorem trailing_text_is_ignored (l : string) (n : N) (c : ascii) (r : string) :
  (Z.of_N n <=? MAX_SAFE_INTEGER) = true ->
  every isWhiteSpace l = true -> isDigit c = false ->
  mem "," (String c r) = false -> mem "-" (String c r) = false ->
  parseItemIds (l ++ showN n ++ String c r) = Scalar (Num (Z.of_N n)).
Proof.
  intros _ Hl Hc Hcomma Hhyphen. rewrite parseItemIds_branches, !mem_app.
  rewrite (every_mem _ _ _ Hl comma_not_white),
    (every_mem _ _ _ Hl hyphen_not_white),
    (every_mem _ _ _ (showN_digits n) (eq_refl : isDigit "," = false)),
    (every_mem _ _ _ (showN_digits n) (eq_refl : isDigit "-" = false)),
    Hcomma, Hhyphen.
  cbn [orb]. now rewrite (parseInt_white_app _ _ Hl), (parseInt_showN_junk _ _ _ Hc).
Qed.

Lemma trailing_text_is_ignored_witness :
  parseItemIds (" " ++ showN 12 ++ "abc") = Scalar (Num 12).
Proof.
  exact (trailing_text_is_ignored " " 12 "a" "bc"
           eq_refl eq_refl eq_refl eq_refl eq_refl).
Defined.



(** X13.  Empty or blank id text gives the scalar [NaN]: neither an error
    nor an empty sequence. *)
Theorem blank_ids_give_NaN (s : string) :
  every isWhiteSpace s = true -> parseItemIds s = Scalar NaN.
Proof.
  intros H. rewrite parseItemIds_branches.
  rewrite (every_mem _ _ _ H comma_not_white), (every_mem _ _ _ H hyphen_not_white).
  now rewrite <- parseInt_trim, (trim_white _ H).
Qed.

Lemma blank_ids_give_NaN_witness : parseItemIds "   " = Scalar NaN.
Proof. exact (blank_ids_give_NaN "   " eq_refl). Defined.

End IdExtras.

(** ** More on the catalogue *)

Module CatalogExtras.
Import JS Spec JSFacts Catalog CatalogFacts.

(** *** Substring search *)

Lemma includes_empty (s : string) : includes s EmptyString = true.
Proof. destruct s; reflexivity. Qed.

Lemma includes_refl (s : string) : includes s s = true.
Proof.
  apply includes_spec. exists EmptyString, EmptyString. simpl.
  induction s as [|c r IH]; simpl; [reflexivity | now rewrite <- IH].
Qed.

Lemma lowerChar_idem (c : ascii) : lowerChar (lowerChar c) = lowerChar c.
Proof. each_char c; reflexivity. Qed.

Lemma toLowerCase_idem (s : string) : toLowerCase (toLowerCase s) = toLowerCase s.
Proof.
  induction s as [|c r IH]; simpl; [reflexivity | now rewrite lowerChar_idem, IH].
Qed.

Lemma applyLimit_incl (lim : option Z) (l : list OsrsItem) (x : OsrsItem) :
  In x (applyLimit lim l) -> In x l.
Proof.
  unfold applyLimit. destruct lim as [n|]; [|auto].
  destruct (0 <? n); [|auto]. intros H.
  rewrite <- (firstn_skipn (Z.to_nat n) l). apply in_or_app. now left.
Qed.

(** The filter [searchItemsByName] amounts to. *)
Lemma searchItemsByName_as_filter (data : list OsrsItem) (q : string) (lim : option Z) :
  searchItemsByName data q lim
  = getAllItems data
      (Some {| nameContains := Some q; hasVariant := None; limit := lim |}).
Proof. reflexivity. Qed.

Lemma search_match_spec (q : string) (item : OsrsItem) :
  includes (toLowerCase (name item)) (toLowerCase q) = true
  <-> containsIgnoreCase (name item) q.
Proof. apply includes_spec. Qed.

(** X14.  [searchItemsByName] returns only items of the dataset whose name
    contains the query without regard to case; without a limit it returns
    all of them; and it is [getAllItems] with the filter that has the query
    as [nameContains] and the same limit. *)
Theorem searchItemsByName_matches (data : list OsrsItem) (q : string) (lim : option Z) :
  (forall item, In item (searchItemsByName data q lim) ->
                In item data /\ containsIgnoreCase (name item) q)
  /\ (forall item, In item (searchItemsByName data q None) <->
                   In item data /\ containsIgnoreCase (name item) q)
  /\ searchItemsByName data q lim
     = getAllItems data
         (Some {| nameContains := Some q; hasVariant := None; limit := lim |}).
Proof.
  split; [|split; [|reflexivity]].
  - intros item H. unfold searchItemsByName in H.
    apply applyLimit_incl, filter_In in H as [Hin Hm].
    split; [assumption | now apply search_match_spec].
  - intros item. unfold searchItemsByName, applyLimit.
    now rewrite filter_In, search_match_spec.
Qed.

(** X15.  A positive limit caps the search at that many items, and the
    capped result is the beginning of the unlimited one. *)
Theorem searchItemsByName_limit (data : list OsrsItem) (q : string) (n : Z) :
  0 < n ->
  (List.length (searchItemsByName data q (Some n)) <= Z.to_nat n)%nat
  /\ searchItemsByName data q (Some n)
     = firstn (Z.to_nat n) (searchItemsByName data q None)
  /\ exists rest,
       searchItemsByName data q None
       = (searchItemsByName data q (Some n) ++ rest)%list.
Proof.
  intros Hn. unfold searchItemsByName, applyLimit.
  destruct (Z.ltb_spec 0 n) as [_|]; [|lia].
  split; [apply firstn_le_length|]. split; [reflexivity|].
  eexists. symmetry. apply firstn_skipn.
Qed.

Lemma searchItemsByName_limit_witness :
  searchItemsByName [whip; whip; whip] "WHIP" (Some 2) = [whip; whip].
Proof.
  destruct (searchItemsByName_limit [whip; whip; whip] "WHIP" 2 eq_refl)
    as (_ & H & _).
  exact H.
Defined.

(** X16.  A limit that is not positive is no limit: with limit 0 (or a
    negative one) [searchItemsByName] and [getAllItems] return every match,
    not none. *)
Theorem non_positive_limit_is_no_limit
  (data : list OsrsItem) (q : string) (f : ItemFilter) (n : Z) :
  n <= 0 ->
  searchItemsByName data q (Some n) = searchItemsByName data q None
  /\ getAllItems data
       (Some {| nameContains := nameContains f; hasVariant := hasVariant f;
                limit := Some n |})
     = getAllItems data
         (Some {| nameContains := nameContains f; hasVariant := hasVariant f;
                  limit := None |}).
Proof.
  intros Hn. unfold searchItemsByName, getAllItems, applyLimit. simpl.
  destruct (Z.ltb_spec 0 n); [lia|]. split; reflexivity.
Qed.

Lemma non_positive_limit_is_no_limit_witness :
  searchItemsByName [whip; whip] "whip" (Some 0) = [whip; whip].
Proof.
  exact (proj1 (non_positive_limit_is_no_limit [whip; whip] "whip"
                  {| nameContains := None; hasVariant := None; limit := None |}
                  0 ltac:(discriminate))).
Defined.

(** X17.  The empty query matches every item: searching for the empty
    string, or filtering with an empty [nameContains], returns the whole
    dataset. *)
Theorem empty_query_returns_everything (data : list OsrsItem) :
  searchItemsByName data EmptyString None = data
  /\ getAllItems data
       (Some {| nameContains := Some EmptyString; hasVariant := None;
                limit := None |}) = data.
Proof.
  assert (H : filter (fun item => includes (toLowerCase (name item)) EmptyString) data
              = data).
  { rewrite <- (filter_true data) at 2. apply filter_ext.
    intros x. apply includes_empty. }
  split; exact H.
Qed.

(** X18.  The search does not depend on the case of the query: lowering the
    query first gives the same result. *)
Theorem searchItemsByName_ignores_query_case
  (data : list OsrsItem) (q : string) (lim : option Z) :
  searchItemsByName data (toLowerCase q) lim = searchItemsByName data q lim.
Proof. unfold searchItemsByName. now rewrite toLowerCase_idem. Qed.

(** *** Lookup by name *)

(** X19.  [getItemByName] returns the first item of the dataset whose name
    is exactly the given one, and nothing when no item has that name. *)
Theorem getItemByName_first_match (data : list OsrsItem) (n : string) :
  (forall item,
      getItemByName data n = Some item <->
      exists pre post, data = (pre ++ item :: post)%list
                       /\ name item = n
                       /\ forall other, In other pre -> name other <> n)
  /\ (getItemByName data n = None <->
      forall item, In item data -> name item <> n).
Proof.
  unfold getItemByName. split.
  - intros item. rewrite find_first. split.
    + intros (pre & post & H & Hx & Hpre). exists pre, post.
      repeat split; [assumption | now apply String.eqb_eq |].
      intros other Hin. apply String.eqb_neq. now apply Hpre.
    + intros (pre & post & H & Hx & Hpre). exists pre, post.
      repeat split; [assumption | now apply String.eqb_eq |].
      intros other Hin. apply String.eqb_neq. now apply Hpre.
  - split.
    + intros H item Hin. apply String.eqb_neq. exact (find_none _ _ H item Hin).
    + intros H. destruct (find _ data) as [x|] eqn:E; [|reflexivity].
      apply find_some in E as [Hin Hm]. apply String.eqb_eq in Hm.
      now destruct (H x Hin).
Qed.

(** X20.  An item found by its exact name is also found by searching for
    that name. *)
Theorem exact_name_is_a_search_hit (data : list OsrsItem) (n : string) (item : OsrsItem) :
  getItemByName data n = Some item ->
  In item (searchItemsByName data n None).
Proof.
  intros H. unfold getItemByName in H. apply find_some in H as [Hin Hm].
  apply String.eqb_eq in Hm. unfold searchItemsByName, applyLimit.
  apply filter_In. split; [assumption|]. rewrite Hm. apply includes_refl.
Qed.

Lemma exact_name_is_a_search_hit_witness :
  In whip (searchItemsByName [whip] "Abyssal whip" None).
Proof.
  exact (exact_name_is_a_search_hit [whip] "Abyssal whip" whip eq_refl).
Defined.

(** *** Variants *)

Lemma filter_length_split {A : Type} (p : A -> bool) (l : list A) :
  (List.length (filter p l) + List.length (filter (fun x => negb (p x)) l)
   = List.length l)%nat.
Proof.
  induction l as [|x t IH]; [reflexivity|]. simpl.
  destruct (p x); simpl; lia.
Qed.

(** X21.  The filters [hasVariant: true] and [hasVariant: false] split the
    dataset: every item is returned by exactly one of them, and the two
    results together have as many items as the dataset. *)
Theorem hasVariant_splits_the_dataset (data : list OsrsItem) :
  (List.length (getAllItems data (Some (hasVariantOnly true)))
   + List.length (getAllItems data (Some (hasVariantOnly false)))
   = getItemCount data)%nat
  /\ (forall item,
        In item (getAllItems data (Some (hasVariantOnly true)))
        <-> In item data /\ variant item <> None)
  /\ (forall item,
        In item (getAllItems data (Some (hasVariantOnly false)))
        <-> In item data /\ variant item = None).
Proof.
  unfold getAllItems, hasVariantOnly, applyLimit, getItemCount. simpl.
  split; [|split].
  - rewrite <- (filter_length_split
                  (fun item => match variant item with Some _ => true | None => false end)
                  data).
    f_equal. f_equal. apply filter_ext. intros x. now destruct (variant x).
  - intros item. rewrite filter_In.
    destruct (variant item); split; intros [H1 H2]; split;
      try assumption; try discriminate; congruence.
  - intros item. rewrite filter_In.
    destruct (variant item); split; intros [H1 H2]; split;
      try assumption; try discriminate; congruence.
Qed.

End CatalogExtras.

(** ** Unique base names *)

Module BaseNameFacts.
Import JS Spec JSFacts Catalog CatalogFacts.

(** *** The code-unit order on strings *)

Lemma ascii_compare_lt (a b : ascii) :
  Ascii.compare a b = Lt <-> (N_of_ascii a < N_of_ascii b)%N.
Proof. apply N.compare_lt_iff. Qed.

Lemma leb_trans (a b c : string) :
  String.leb a b = true -> String.leb b c = true -> String.leb a c = true.
Proof.
  unfold String.leb.
  revert b c; induction a as [|x a IH]; intros [|y b] [|z c]; simpl;
    try reflexivity; try discriminate.
  destruct (Ascii.compare x y) eqn:Exy; try discriminate.
  - apply Ascii.compare_eq_iff in Exy as ->.
    destruct (Ascii.compare y z); try discriminate; [apply IH | reflexivity].
  - intros _. destruct (Ascii.compare y z) eqn:Eyz; try discriminate.
    + apply Ascii.compare_eq_iff in Eyz as <-. now rewrite Exy.
    + intros _. apply ascii_compare_lt in Exy. apply ascii_compare_lt in Eyz.
      assert (E : Ascii.compare x z = Lt)
        by (apply ascii_compare_lt; eapply N.lt_trans; eassumption).
      now rewrite E.
Qed.

(** *** Sorting *)

Lemma insertSorted_In (a x : string) (l : list string) :
  In x (insertSorted a l) <-> x = a \/ In x l.
Proof.
  induction l as [|y t IH]; simpl.
  - intuition auto.
  - destruct (String.leb a y); simpl; [|rewrite IH]; intuition auto.
Qed.

Lemma sort_In (x : string) (l : list string) : In x (sort l) <-> In x l.
Proof.
  induction l as [|a t IH]; simpl; [reflexivity|].
  rewrite insertSorted_In, IH. intuition auto.
Qed.

Lemma insertSorted_NoDup (a : string) (l : list string) :
  ~ In a l -> NoDup l -> NoDup (insertSorted a l).
Proof.
  induction l as [|y t IH]; simpl; intros Hin Hnd.
  - constructor; [auto | constructor].
  - destruct (String.leb a y).
    + constructor; [simpl; assumption | assumption].
    + inversion Hnd as [|? ? Hy Ht]; subst. constructor.
      * rewrite insertSorted_In. intros [->|H]; [apply Hin; now left | auto].
      * apply IH; [intros H; apply Hin; now right | assumption].
Qed.

Lemma sort_NoDup (l : list string) : NoDup l -> NoDup (sort l).
Proof.
  induction l as [|a t IH]; simpl; intros H; [constructor|].
  inversion H as [|? ? Ha Ht]; subst.
  apply insertSorted_NoDup; [now rewrite sort_In | now apply IH].
Qed.

Lemma insertSorted_sorted (a : string) (l : list string) :
  StronglySorted (fun x y => String.leb x y = true) l ->
  StronglySorted (fun x y => String.leb x y = true) (insertSorted a l).
Proof.
  induction l as [|y t IH]; simpl; intros H.
  - repeat constructor.
  - inversion H as [|? ? Ht Hy]; subst.
    destruct (String.leb a y) eqn:E.
    + constructor; [assumption|]. constructor; [assumption|].
      rewrite Forall_forall in *. intros z Hz.
      apply (leb_trans a y z E). now apply Hy.
    + constructor; [now apply IH|].
      rewrite Forall_forall in *. intros z Hz.
      apply insertSorted_In in Hz as [->|Hz]; [|now apply Hy].
      destruct (String.leb_total a y) as [H1|H1]; [congruence | assumption].
Qed.

Lemma sort_sorted (l : list string) :
  StronglySorted (fun x y => String.leb x y = true) (sort l).
Proof.
  induction l as [|a t IH]; simpl; [constructor | now apply insertSorted_sorted].
Qed.

(** *** The set of base names *)

Lemma existsb_eqb_In (x : string) (l : list string) :
  existsb (String.eqb x) l = true <-> In x l.
Proof.
  rewrite existsb_exists. split.
  - intros (y & Hy & E). apply String.eqb_eq in E. now subst.
  - intros H. exists x. split; [assumption | apply String.eqb_refl].
Qed.

Lemma setAdd_In (seen : list string) (y x : string) :
  In x (setAdd seen y) <-> In x seen \/ x = y.
Proof.
  unfold setAdd. destruct (existsb (String.eqb y) seen) eqn:E.
  - apply existsb_eqb_In in E. split; [auto | intros [H| ->]; assumption].
  - rewrite in_app_iff. simpl. intuition auto.
Qed.

Lemma setAdd_NoDup (seen : list string) (y : string) :
  NoDup seen -> NoDup (setAdd seen y).
Proof.
  intros H. unfold setAdd. destruct (existsb (String.eqb y) seen) eqn:E; [assumption|].
  assert (Hn : ~ In y seen).
  { intros Hin. apply existsb_eqb_In in Hin. congruence. }
  clear E. induction H as [|a t Ha Ht IH]; simpl.
  - constructor; [auto | constructor].
  - constructor.
    + rewrite in_app_iff. simpl. intros [H|[H|[]]]; [auto|].
      apply Hn. now left.
    + apply IH. intros H. apply Hn. now right.
Qed.

Lemma collect_In (data : list OsrsItem) (seen : list string) (x : string) :
  In x (fold_left (fun s item => setAdd s (baseName item)) data seen)
  <-> In x seen \/ exists item, In item data /\ baseName item = x.
Proof.
  revert seen; induction data as [|d t IH]; intros seen; simpl.
  - split; [auto | intros [H|(item & [] & _)]; assumption].
  - rewrite IH, setAdd_In. split.
    + intros [[H|H]|(item & Hin & E)]; auto.
      * right. exists d. auto.
      * right. exists item. auto.
    + intros [H|(item & [<-|Hin] & E)]; auto.
      right. now exists item.
Qed.

Lemma collect_NoDup (data : list OsrsItem) (seen : list string) :
  NoDup seen ->
  NoDup (fold_left (fun s item => setAdd s (baseName item)) data seen).
Proof.
  revert seen; induction data as [|d t IH]; intros seen H; simpl; [assumption|].
  apply IH. now apply setAdd_NoDup.
Qed.

Lemma getUniqueBaseNames_In (data : list OsrsItem) (b : string) :
  In b (getUniqueBaseNames data) <-> exists item, In item data /\ baseName item = b.
Proof.
  unfold getUniqueBaseNames. rewrite sort_In, collect_In.
  split; [intros [[]|H]; assumption | auto].
Qed.

Lemma getUniqueBaseNames_NoDup (data : list OsrsItem) :
  NoDup (getUniqueBaseNames data).
Proof. apply sort_NoDup, collect_NoDup. constructor. Qed.

(** X22.  [getUniqueBaseNames] lists exactly the base names that occur in
    the dataset, each once, in ascending code-unit order. *)
Theorem getUniqueBaseNames_sorted_unique (data : list OsrsItem) :
  StronglySorted (fun x y => String.leb x y = true) (getUniqueBaseNames data)
  /\ NoDup (getUniqueBaseNames data)
  /\ (forall b, In b (getUniqueBaseNames data)
                <-> exists item, In item data /\ baseName item = b).
Proof.
  split; [apply sort_sorted|].
  split; [apply getUniqueBaseNames_NoDup | apply getUniqueBaseNames_In].
Qed.

(** X23.  Base names and variants fit together: [getItemVariants] returns
    exactly the items with the given base name, a base name is listed by
    [getUniqueBaseNames] exactly when it has at least one variant, and there
    are never more base names than items. *)
Theorem base_names_and_variants (data : list OsrsItem) (b : string) :
  (forall item, In item (getItemVariants data b)
                <-> In item data /\ baseName item = b)
  /\ (In b (getUniqueBaseNames data) <-> getItemVariants data b <> [])
  /\ (forall item, In item data -> In item (getItemVariants data (baseName item)))
  /\ (List.length (getUniqueBaseNames data) <= getItemCount data)%nat.
Proof.
  assert (V : forall c item, In item (getItemVariants data c)
                             <-> In item data /\ baseName item = c).
  { intros c item. unfold getItemVariants.
    now rewrite filter_In, String.eqb_eq. }
  split; [apply V|]. split; [|split].
  - rewrite getUniqueBaseNames_In. split.
    + intros (item & Hin & E) Hnil.
      assert (H : In item (getItemVariants data b)) by (apply V; auto).
      rewrite Hnil in H. destruct H.
    + intros H. destruct (getItemVariants data b) as [|item t] eqn:E; [congruence|].
      exists item. apply V. rewrite E. now left.
  - intros item Hin. apply V. auto.
  - unfold getItemCount. rewrite <- (length_map baseName data).
    apply NoDup_incl_length; [apply getUniqueBaseNames_NoDup|].
    intros x Hx. apply getUniqueBaseNames_In in Hx as (item & Hin & <-).
    now apply in_map.
Qed.

End BaseNameFacts.

(** ** The scraper's row loop *)

Module ScraperFacts.
Import JS Spec JSFacts SplitFacts NameFacts NameExtras Scraper.

Lemma isEmpty_trim (s : string) : isEmpty (trim s) = every isWhiteSpace s.
Proof.
  pose proof (trim_empty_iff s) as H.
  destruct (trim s) as [|c r], (every isWhiteSpace s); simpl; try reflexivity.
  - symmetry. now apply H.
  - destruct H as [_ H]. discriminate (H eq_refl).
Qed.

(** The item a usable row gives. *)
Lemma scrapeRow_one (cells : list string) :
  scrapeRow [] 1 cells =
  if usableRow cells then
    [ {| id := Scrape.parseItemIds (trim (nth 1 cells EmptyString));
         name := trim (nth 0 cells EmptyString);
         baseName := ImageUrl.baseName
                       (ImageUrl.parseItemName (trim (nth 0 cells EmptyString)));
         variant := ImageUrl.variant
                      (ImageUrl.parseItemName (trim (nth 0 cells EmptyString)));
         imageUrl := ImageUrl.getItemImageUrl (trim (nth 0 cells EmptyString))
                       ImageUrl.noOptions |} ]
  else [].
Proof.
  unfold scrapeRow, usableRow. cbn [Nat.eqb].
  rewrite Nat.ltb_antisym. destruct (2 <=? List.length cells)%nat; [|reflexivity].
  cbn [negb andb]. rewrite !isEmpty_trim.
  destruct (every isWhiteSpace (nth 0 cells EmptyString)),
    (every isWhiteSpace (nth 1 cells EmptyString)); reflexivity.
Qed.

Lemma scrapeRow_app (items : list OsrsItem) (i : nat) (cells : list string) :
  scrapeRow items (S i) cells = (items ++ scrapeRow [] 1 cells)%list.
Proof.
  unfold scrapeRow. cbn [Nat.eqb].
  destruct (List.length cells <? 2)%nat; [now rewrite app_nil_r|].
  destruct (isEmpty _ || isEmpty _); [now rewrite app_nil_r | reflexivity].
Qed.

Lemma eachRow_flat (rows : list (list string)) (i : nat) (items : list OsrsItem) :
  eachRow (S i) rows items = (items ++ flat_map (scrapeRow [] 1) rows)%list.
Proof.
  revert i items; induction rows as [|cells rest IH]; intros i items; simpl.
  - now rewrite app_nil_r.
  - now rewrite IH, scrapeRow_app, app_assoc.
Qed.

Lemma scrapeTable_rows (header : list string) (rows : list (list string)) :
  scrapeTable (header :: rows) = flat_map (scrapeRow [] 1) rows.
Proof. unfold scrapeTable. simpl. now rewrite eachRow_flat. Qed.


(** X24.  Every item the scraper builds is consistent: its name is not
    empty and has no white space at either end, its base name and variant
    are those [parseItemName] gives for the name, and its image URL is the
    default thumbnail of the name - which is also the one of its base
    name. *)
Theorem scraped_items_are_consistent (rows : list (list string)) (item : OsrsItem) :
  In item (scrapeTable rows) ->
  name item <> EmptyString
  /\ trim (name item) = name item
  /\ baseName item = ImageUrl.baseName (ImageUrl.parseItemName (name item))
  /\ variant item = ImageUrl.variant (ImageUrl.parseItemName (name item))
  /\ imageUrl item = ImageUrl.getItemImageUrl (name item) ImageUrl.noOptions
  /\ imageUrl item = ImageUrl.getItemImageUrl (baseName item) ImageUrl.noOptions.
Proof.
  destruct rows as [|header rows]; [intros []|].
  rewrite scrapeTable_rows, in_flat_map. intros (cells & _ & H).
  rewrite scrapeRow_one in H. unfold usableRow in H.
  destruct (2 <=? List.length cells)%nat; [|destruct H].
  destruct (every isWhiteSpace (nth 0 cells EmptyString)) eqn:E0; [destruct H|].
  destruct (every isWhiteSpace (nth 1 cells EmptyString)); [destruct H|].
  destruct H as [<-|[]]. cbn [name baseName variant imageUrl].
  split.
  { intros H. apply trim_empty_iff in H. congruence. }
  split; [apply trim_idem|].
  repeat split. apply imageUrl_base.
Qed.

Lemma scraped_items_are_consistent_witness :
  imageUrl
    {| id := Scrape.Sequence [Num 1704; Num 1705; Num 1706];
       name := "Amulet of glory#1";
       baseName := "Amulet of glory";
       variant := Some "1";
       imageUrl :=
         "https://oldschool.runescape.wiki/images/thumb/Amulet_of_glory_detail.png/120px-Amulet_of_glory_detail.png" |}
  = ImageUrl.getItemImageUrl "Amulet of glory" ImageUrl.noOptions.
Proof.
  exact (proj2 (proj2 (proj2 (proj2 (proj2
    (scraped_items_are_consistent sampleTable
       {| id := Scrape.Sequence [Num 1704; Num 1705; Num 1706];
          name := "Amulet of glory#1";
          baseName := "Amulet of glory";
          variant := Some "1";
          imageUrl :=
            "https://oldschool.runescape.wiki/images/thumb/Amulet_of_glory_detail.png/120px-Amulet_of_glory_detail.png" |}
       (or_introl eq_refl))))))).
Defined.


End ScraperFacts.
